(** * create-app: the App builder, NamedFlagSets and the section renderer

    A shallow embedding of the Go package [create_app] (the file of the
    App, options.go, util.go, help.go) together with small models of the
    library calls it makes (strings, fmt, color, pflag, cobra, errors),
    and the properties the specification states about them.

    Conventions.  A Go [string] is a [string] of bytes; a Go [int] is a [Z];
    a call that panics returns [None]; a pointer to a flag set is a [loc]
    into a heap of flag sets, so that two references to one instance are
    two equal locations. *)

From Stdlib Require Import ZArith List String Ascii Bool Lia.
From stdpp Require Import gmap strings list.

Local Open Scope string_scope.
Local Open Scope list_scope.

(** stdpp keeps [String.append] from unfolding; the texts below are
    computed, so it is let unfold again. *)
#[local] Arguments String.append !s1 s2 : simpl nomatch.

(** ** Bytes and strings of the Go runtime *)

Definition nl : string := String "010"%char "".

(** [s[:i]]: panics when [i] is negative or exceeds [len(s)]. *)
Definition sliceTo (s : string) (i : Z) : option string :=
  if (i <? 0)%Z then None
  else if (Z.of_nat (String.length s) <? i)%Z then None
  else Some (String.substring 0 (Z.to_nat i) s).

(** The package [strings], the functions the sources call. *)
Module Strings.

Fixpoint repeat_nat (s : string) (n : nat) : string :=
  match n with
  | O => ""
  | S n' => s +:+ repeat_nat s n'
  end.

(** [strings.Repeat(s, count)]; the sources call it with [count > 0]
    only (a negative count panics in Go). *)
Definition Repeat (s : string) (count : Z) : string :=
  repeat_nat s (Z.to_nat count).

(** [strings.Index(s, substr)]: the byte index of the first occurrence,
    [-1] when there is none. *)
Fixpoint Index (s substr : string) : Z :=
  if String.prefix substr s then 0%Z
  else match s with
       | EmptyString => (-1)%Z
       | String _ s' =>
           let i := Index s' substr in
           if (i <? 0)%Z then (-1)%Z else (i + 1)%Z
       end.

(** [strings.Contains(s, substr)]: [Index(s, substr) >= 0]. *)
Definition Contains (s substr : string) : bool := (0 <=? Index s substr)%Z.

(** [strings.Split(s, sep)] for a separator of one byte, the way the
    sources call it. *)
Fixpoint Split (s : string) (sep : ascii) : list string :=
  match s with
  | EmptyString => [EmptyString]
  | String c s' =>
      if Ascii.eqb c sep then EmptyString :: Split s' sep
      else match Split s' sep with
           | l :: ls => String c l :: ls
           | [] => [String c EmptyString]
           end
  end.

(** [strings.Join(elems, sep)]. *)
Fixpoint Join (elems : list string) (sep : string) : string :=
  match elems with
  | [] => ""
  | [e] => e
  | e :: es => e +:+ sep +:+ Join es sep
  end.

Definition isASCIIbyte (c : ascii) : bool := (nat_of_ascii c <? 128)%nat.

Fixpoint isASCII (s : string) : bool :=
  match s with
  | EmptyString => true
  | String c s' => isASCIIbyte c && isASCII s'
  end.

(** ['a' <= c && c <= 'z'] then [c -= 'a' - 'A']. *)
Definition upperByte (c : ascii) : ascii :=
  let n := nat_of_ascii c in
  if ((97 <=? n) && (n <=? 122))%nat then ascii_of_nat (n - 32) else c.

Fixpoint mapBytes (f : ascii -> ascii) (s : string) : string :=
  match s with
  | EmptyString => EmptyString
  | String c s' => String (f c) (mapBytes f s')
  end.

(** [strings.ToUpper]: the ASCII path is written out; a string with a
    byte above 127 goes through [strings.Map(unicode.ToUpper, s)], whose
    Unicode tables are the argument [unicodeUpper]. *)
Definition ToUpper (unicodeUpper : string -> string) (s : string) : string :=
  if isASCII s then mapBytes upperByte s else unicodeUpper s.

(** [strings.ReplaceAll(s, old, new)] for [old] of one byte. *)
Fixpoint ReplaceAll (s : string) (old : ascii) (new : string) : string :=
  match s with
  | EmptyString => EmptyString
  | String c s' =>
      if Ascii.eqb c old then new +:+ ReplaceAll s' old new
      else String c (ReplaceAll s' old new)
  end.

End Strings.

(** ** Errors

    A non-nil Go [error]: the name of its dynamic type, as [%T] prints it,
    and the text [Error()] returns. *)
Record error := mkError { errType : string; Error : string }.

(** [errors.New(text)]. *)
Definition errorsNew (text : string) : error :=
  mkError "*errors.errorString" text.

(** ** The package [fmt], verbs without flags or width *)
Module Fmt.

Inductive arg :=
| Str (s : string)
| Err (e : error).

Definition typeOf (a : arg) : string :=
  match a with
  | Str _ => "string"
  | Err e => errType e
  end.

(** What [%v] and [%s] print. *)
Definition plain (a : arg) : string :=
  match a with
  | Str s => s
  | Err e => Error e
  end.

Definition dquote : ascii := "034"%char.

Definition hexDigit (n : nat) : ascii :=
  if (n <? 10)%nat then ascii_of_nat (48 + n) else ascii_of_nat (87 + n).

(** One byte of [strconv.Quote].  Bytes above 127 are copied: that is
    what Go does for the UTF-8 encoding of a printable rune. *)
Definition quoteByte (c : ascii) : string :=
  let n := nat_of_ascii c in
  if Ascii.eqb c dquote then String "\"%char (String dquote "")
  else if Ascii.eqb c "\"%char then "\\"
  else if (n =? 7)%nat then "\a"
  else if (n =? 8)%nat then "\b"
  else if (n =? 12)%nat then "\f"
  else if (n =? 10)%nat then "\n"
  else if (n =? 13)%nat then "\r"
  else if (n =? 9)%nat then "\t"
  else if (n =? 11)%nat then "\v"
  else if ((n <? 32) || (n =? 127))%nat
       then "\x" +:+ String (hexDigit (n / 16)) (String (hexDigit (n mod 16)) "")
  else String c "".

Fixpoint quoteBody (s : string) : string :=
  match s with
  | EmptyString => ""
  | String c s' => quoteByte c +:+ quoteBody s'
  end.

(** [strconv.Quote(s)], what [%q] prints. *)
Definition Quote (s : string) : string :=
  String dquote (quoteBody s +:+ String dquote "").

Definition verb (v : ascii) (a : arg) : string :=
  if Ascii.eqb v "v"%char || Ascii.eqb v "s"%char then plain a
  else if Ascii.eqb v "q"%char then Quote (plain a)
  else "%!" +:+ String v ("(" +:+ typeOf a +:+ "=" +:+ plain a +:+ ")").

Fixpoint extraArgs (args : list arg) : string :=
  match args with
  | [] => ""
  | [a] => typeOf a +:+ "=" +:+ plain a
  | a :: rest => typeOf a +:+ "=" +:+ plain a +:+ ", " +:+ extraArgs rest
  end.

(** [fmt.Sprintf(format, args...)]: an operand that is missing prints
    [%!v(MISSING)], operands left over print [%!(EXTRA type=value)]. *)
Fixpoint Sprintf (format : string) (args : list arg) : string :=
  match format with
  | EmptyString =>
      match args with
      | [] => ""
      | _ => "%!(EXTRA " +:+ extraArgs args +:+ ")"
      end
  | String c rest =>
      if Ascii.eqb c "%"%char then
        match rest with
        | EmptyString => "%!(NOVERB)" +:+ Sprintf rest args
        | String v rest' =>
            if Ascii.eqb v "%"%char then String "%"%char (Sprintf rest' args)
            else match args with
                 | [] => "%!" +:+ String v ("(MISSING)" +:+ Sprintf rest' [])
                 | a :: args' => verb v a +:+ Sprintf rest' args'
                 end
        end
      else String c (Sprintf rest args)
  end.

(** [fmt.Errorf(format, args...)] without [%w]. *)
Definition Errorf (format : string) (args : list arg) : error :=
  errorsNew (Sprintf format args).

End Fmt.

(** ** The package [github.com/fatih/color] *)
Module Color.

Definition escape : string := String (ascii_of_nat 27) "".

(** [c.wrap(s)]: the escape sequences are left out when colour is off
    ([color.NoColor], decided by the library from the terminal). *)
Definition wrap (noColor : bool) (code : string) (s : string) : string :=
  if noColor then s
  else escape +:+ "[" +:+ code +:+ "m" +:+ s +:+ escape +:+ "[0m".

(** [colorString]: with no operand the format is printed as it is,
    otherwise it goes through [Sprintf]. *)
Definition colorString (noColor : bool) (code : string)
    (format : string) (a : list Fmt.arg) : string :=
  match a with
  | [] => wrap noColor code format
  | _ => wrap noColor code (Fmt.Sprintf format a)
  end.

Definition RedString := fun noColor => colorString noColor "31".
Definition GreenString := fun noColor => colorString noColor "32".

End Color.


(** ** The package [github.com/spf13/pflag]

    The part of the flag library the sources call.  A flag carries the
    fields the usage text reads; its [Value] is one of the three kinds the
    sources create.  A flag set keeps its flags in the order they were
    added ([orderedFormal]); [formal], the same flags keyed by name, is
    read through [Lookup].  Name normalisation is not modelled: no flag
    set of the sources installs a normalising function. *)
Module Pflag.

Inductive ValueKind := boolValue | intValue | stringValue.

Record Flag := mkFlag {
  Name : string;
  Shorthand : string;
  Usage : string;
  Value : ValueKind;
  DefValue : string;
  NoOptDefVal : string;
  Deprecated : string;
  Hidden : bool;
  ShorthandDeprecated : string
}.

Record FlagSet := mkFlagSet {
  name : string;
  orderedFormal : list Flag;
  SortFlags : bool
}.

(** [pflag.NewFlagSet(name, errorHandling)]. *)
Definition NewFlagSet (n : string) : FlagSet :=
  {| name := n; orderedFormal := []; SortFlags := true |}.

(** [f.Lookup(name)]: [None] is the nil flag. *)
Definition Lookup (f : FlagSet) (n : string) : option Flag :=
  List.find (fun x => String.eqb (Name x) n) (orderedFormal f).

(** [f.HasFlags()]: [len(f.formal) > 0], hidden flags included. *)
Definition HasFlags (f : FlagSet) : bool :=
  match orderedFormal f with
  | [] => false
  | _ :: _ => true
  end.

Definition shorthandUsed (f : FlagSet) (c : string) : bool :=
  existsb (fun x => String.eqb (Shorthand x) c) (orderedFormal f).

(** [f.AddFlag(flag)] panics when the name is taken, when the shorthand
    has more than one byte, and when the shorthand is taken. *)
Definition AddFlag (f : FlagSet) (flag : Flag) : option FlagSet :=
  match Lookup f (Name flag) with
  | Some _ => None
  | None =>
      let f' := {| name := name f;
                   orderedFormal := orderedFormal f ++ [flag];
                   SortFlags := SortFlags f |} in
      if String.eqb (Shorthand flag) "" then Some f'
      else if (1 <? String.length (Shorthand flag))%nat then None
      else if shorthandUsed f (Shorthand flag) then None
      else Some f'
  end.

Fixpoint insertByName (x : Flag) (l : list Flag) : list Flag :=
  match l with
  | [] => [x]
  | y :: l' =>
      if String.leb (Name x) (Name y) then x :: l
      else y :: insertByName x l'
  end.

(** [sortFlags]: the flags by name, as [sort.Strings] orders the names. *)
Definition sortFlags (l : list Flag) : list Flag :=
  fold_right insertByName [] l.

(** The order in which [f.VisitAll] calls its function. *)
Definition visitOrder (f : FlagSet) : list Flag :=
  if SortFlags f then sortFlags (orderedFormal f) else orderedFormal f.

(** [f.AddFlagSet(newSet)]: every flag of [newSet] whose name [f] does
    not have yet is added. *)
Definition AddFlagSet (f newSet : FlagSet) : option FlagSet :=
  fold_left
    (fun acc flag =>
       match acc with
       | None => None
       | Some g =>
           match Lookup g (Name flag) with
           | Some _ => Some g
           | None => AddFlag g flag
           end
       end)
    (visitOrder newSet) (Some f).

(** [f.BoolP(name, shorthand, value, usage)]. *)
Definition BoolP (f : FlagSet) (n shorthand : string) (value : bool)
    (usage : string) : option FlagSet :=
  AddFlag f {| Name := n; Shorthand := shorthand; Usage := usage;
               Value := boolValue;
               DefValue := if value then "true" else "false";
               NoOptDefVal := "true"; Deprecated := ""; Hidden := false;
               ShorthandDeprecated := "" |}.

(** [f.Int(name, 0, usage)]; the sources pass the value [0] only, whose
    [DefValue] is the text of [strconv.Itoa(0)]. *)
Definition Int0 (f : FlagSet) (n : string) (usage : string) : option FlagSet :=
  AddFlag f {| Name := n; Shorthand := ""; Usage := usage;
               Value := intValue; DefValue := "0";
               NoOptDefVal := ""; Deprecated := ""; Hidden := false;
               ShorthandDeprecated := "" |}.

End Pflag.


(** ** The usage text of a flag set

    [FlagUsagesWrapped] of pflag 1.0.5 with its helpers [UnquoteUsage],
    [defaultIsZeroValue], [wrapN] and [wrap], for the flag kinds above.
    The renderer below takes the primitive as an argument; this model is
    the instance the examples are run on. *)
Module PflagText.
Import Pflag.

Definition NUL : string := String "000"%char "".
Definition backquote : ascii := "096"%char.

Definition take (s : string) (i : nat) : string := String.substring 0 i s.

Definition sliceFrom (s : string) (i : nat) : string :=
  String.substring i (String.length s - i) s.

(** The text before and after the first byte [c] of [s]. *)
Fixpoint cut (c : ascii) (s : string) : option (string * string) :=
  match s with
  | EmptyString => None
  | String x s' =>
      if Ascii.eqb x c then Some (EmptyString, s')
      else match cut c s' with
           | Some (a, b) => Some (String x a, b)
           | None => None
           end
  end.

Definition varnameOfType (k : ValueKind) : string :=
  match k with
  | boolValue => ""
  | intValue => "int"
  | stringValue => "string"
  end.

(** [UnquoteUsage(flag)]: a back-quoted word of the usage names the
    operand; otherwise the type does. *)
Definition UnquoteUsage (flag : Flag) : string * string :=
  match cut backquote (Usage flag) with
  | Some (before, rest) =>
      match cut backquote rest with
      | Some (nm, after) => (nm, before +:+ nm +:+ after)
      | None => (varnameOfType (Value flag), Usage flag)
      end
  | None => (varnameOfType (Value flag), Usage flag)
  end.

Definition defaultIsZeroValue (flag : Flag) : bool :=
  match Value flag with
  | boolValue => String.eqb (DefValue flag) "false"
  | intValue => String.eqb (DefValue flag) "0"
  | stringValue => String.eqb (DefValue flag) ""
  end.

Definition nonEmpty (s : string) : bool := negb (String.eqb s "").

(** The line of a flag up to and with the byte that marks where the
    usage starts. *)
Definition lineHead (flag : Flag) : string :=
  let line :=
    if nonEmpty (Shorthand flag) && String.eqb (ShorthandDeprecated flag) ""
    then Fmt.Sprintf "  -%s, --%s" [Fmt.Str (Shorthand flag); Fmt.Str (Name flag)]
    else Fmt.Sprintf "      --%s" [Fmt.Str (Name flag)] in
  let varname := fst (UnquoteUsage flag) in
  let line := if nonEmpty varname then line +:+ " " +:+ varname else line in
  let line :=
    if nonEmpty (NoOptDefVal flag) then
      match Value flag with
      | stringValue =>
          line +:+ "[=" +:+ String Fmt.dquote (NoOptDefVal flag)
               +:+ String Fmt.dquote "]"
      | boolValue =>
          if String.eqb (NoOptDefVal flag) "true" then line
          else line +:+ Fmt.Sprintf "[=%s]" [Fmt.Str (NoOptDefVal flag)]
      | intValue => line +:+ Fmt.Sprintf "[=%s]" [Fmt.Str (NoOptDefVal flag)]
      end
    else line in
  line +:+ NUL.

(** The rest of the line: usage, default and deprecation note. *)
Definition lineTail (flag : Flag) : string :=
  let line := snd (UnquoteUsage flag) in
  let line :=
    if defaultIsZeroValue flag then line
    else match Value flag with
         | stringValue => line +:+ Fmt.Sprintf " (default %q)" [Fmt.Str (DefValue flag)]
         | _ => line +:+ Fmt.Sprintf " (default %s)" [Fmt.Str (DefValue flag)]
         end in
  if nonEmpty (Deprecated flag)
  then line +:+ Fmt.Sprintf " (DEPRECATED: %s)" [Fmt.Str (Deprecated flag)]
  else line.

(** [strings.LastIndexAny] and [strings.LastIndex] for bytes. *)
Fixpoint lastIndexWhere (p : ascii -> bool) (s : string) (pos : Z) (found : Z) : Z :=
  match s with
  | EmptyString => found
  | String c s' =>
      lastIndexWhere p s' (pos + 1)%Z (if p c then pos else found)
  end.

Definition isBlank (c : ascii) : bool :=
  Ascii.eqb c " "%char || Ascii.eqb c "009"%char || Ascii.eqb c "010"%char.

(** [wrapN(i, slop, s)]: an initial part of [s] of at most [i] bytes cut
    at white space, and the remainder. *)
Definition wrapN (i slop : Z) (s : string) : string * string :=
  if (Z.of_nat (String.length s) <? i + slop)%Z then (s, "")
  else
    let pre := take s (Z.to_nat i) in
    let w := lastIndexWhere isBlank pre 0%Z (-1)%Z in
    if (w <=? 0)%Z then (s, "")
    else
      let nlPos := lastIndexWhere (Ascii.eqb "010"%char) pre 0%Z (-1)%Z in
      if ((0 <? nlPos) && (nlPos <? w))%Z
      then (take s (Z.to_nat nlPos), sliceFrom s (Z.to_nat (nlPos + 1)))
      else (take s (Z.to_nat w), sliceFrom s (Z.to_nat (w + 1))).

(** The loop [for s != ""] of [wrap]; every turn shortens [s], so
    [String.length s] turns are enough. *)
Fixpoint wrapRest (fuel : nat) (width slop : Z) (indent : string)
    (s : string) (r : string) : string :=
  match fuel with
  | O => r
  | S fuel' =>
      if String.eqb s "" then r
      else
        let '(t, s') := wrapN width slop s in
        wrapRest fuel' width slop indent s'
          (r +:+ nl +:+ indent +:+ Strings.ReplaceAll t "010"%char (nl +:+ indent))
  end.

(** [wrap(i, w, s)]: [s] wrapped to the width [w] with the indent [i];
    [w = 0] does no wrapping. *)
Definition wrap (i w : Z) (s : string) : string :=
  if (w =? 0)%Z
  then Strings.ReplaceAll s "010"%char (nl +:+ Strings.Repeat " " i)
  else
    let width := (w - i)%Z in
    let '(i, width, r) :=
      if (width <? 24)%Z
      then (16%Z, (w - 16)%Z, nl +:+ Strings.Repeat " " 16)
      else (i, width, "") in
    if (width <? 24)%Z then Strings.ReplaceAll s "010"%char r
    else
      let slop := 5%Z in
      let width := (width - slop)%Z in
      let '(l, s') := wrapN width slop s in
      let indent := Strings.Repeat " " i in
      let r := r +:+ Strings.ReplaceAll l "010"%char (nl +:+ indent) in
      wrapRest (String.length s') width slop indent s' r.

Definition maxlenOf (flags : list Flag) : nat :=
  fold_left (fun m flag => Nat.max m (String.length (lineHead flag))) flags 0%nat.

(** One line of the usage text, as [fmt.Fprintln] writes its three
    operands. *)
Definition usageLine (maxlen : nat) (cols : Z) (flag : Flag) : string :=
  let line := lineHead flag +:+ lineTail flag in
  let sidx := Z.to_nat (Strings.Index line NUL) in
  take line sidx +:+ " " +:+ Strings.repeat_nat " " (maxlen - sidx) +:+ " "
    +:+ wrap (Z.of_nat maxlen + 2) cols (sliceFrom line (sidx + 1)) +:+ nl.

(** [f.FlagUsagesWrapped(cols)]. *)
Definition FlagUsagesWrapped (f : FlagSet) (cols : Z) : string :=
  let flags := List.filter (fun flag => negb (Hidden flag)) (visitOrder f) in
  let maxlen := maxlenOf flags in
  String.concat "" (List.map (usageLine maxlen cols) flags).

End PflagText.

(** ** options.go: NamedFlagSets *)

(** A pointer to a [pflag.FlagSet]: an index into the heap of flag sets. *)
Abbreviation loc := nat (only parsing).

Record NamedFlagSets := mkNamedFlagSets {
  (** Order is an ordered list of flag set names *)
  Order : list string;
  (** FlagSets stores the flag by name; [None] is the nil map *)
  FlagSets : option (gmap string loc)
}.

(** The zero value [var namedFlagSets NamedFlagSets]. *)
Definition zeroNamedFlagSets : NamedFlagSets :=
  {| Order := []; FlagSets := None |}.

(** [m[name]]: reading a nil map finds nothing. *)
Definition mapIndex (m : option (gmap string loc)) (n : string) : option loc :=
  match m with
  | None => None
  | Some m => m !! n
  end.

(** [nfs.FlagSet(name)]: the location returned, the receiver and the heap
    after the call. *)
Definition FlagSet (nfs : NamedFlagSets) (h : list Pflag.FlagSet) (n : string)
    : loc * NamedFlagSets * list Pflag.FlagSet :=
  let m := match FlagSets nfs with
           | None => ∅
           | Some m => m
           end in
  match m !! n with
  | None =>
      let p := List.length h in
      (p,
       {| Order := Order nfs ++ [n]; FlagSets := Some (<[n := p]> m) |},
       h ++ [Pflag.NewFlagSet n])
  | Some p => (p, {| Order := Order nfs; FlagSets := Some m |}, h)
  end.

(** A sequence of calls of [FlagSet] on one receiver: the locations
    returned, call by call, and the receiver and heap at the end. *)
Fixpoint FlagSetCalls (nfs : NamedFlagSets) (h : list Pflag.FlagSet)
    (refs : list string) : list loc * NamedFlagSets * list Pflag.FlagSet :=
  match refs with
  | [] => ([], nfs, h)
  | n :: refs' =>
      let '(p, nfs1, h1) := FlagSet nfs h n in
      let '(ps, nfs2, h2) := FlagSetCalls nfs1 h1 refs' in
      (p :: ps, nfs2, h2)
  end.

(** ** options.go: PrintSections *)
Section Renderer.

(** [wideFS.FlagUsagesWrapped(cols)], the wrap-to-width primitive of the
    flag library, and the Unicode tables of [strings.ToUpper]. *)
Variable FlagUsagesWrapped : Pflag.FlagSet -> Z -> string.
Variable unicodeUpper : string -> string.

(** [strings.Repeat("z", cols-24)]. *)
Definition zzzOf (cols : Z) : string := Strings.Repeat "z" (cols - 24).

(** [wideFS] when the section is rendered: a new flag set that takes the
    flags of the group and, above 24 columns, the flag named [zzz]. *)
Definition wideFSOf (fs : Pflag.FlagSet) (cols : Z) : option Pflag.FlagSet :=
  wideFS ← Pflag.AddFlagSet (Pflag.NewFlagSet "") fs;
  if (24 <? cols)%Z
  then Pflag.Int0 wideFS (zzzOf cols) (zzzOf cols)
  else Some wideFS.

(** [strings.ToUpper(name[:1]+name[:1])]. *)
Definition headerLetters (n : string) : option string :=
  first ← sliceTo n 1;
  Some (Strings.ToUpper unicodeUpper (first +:+ first)).

(** The body of the loop for a group that has flags: what it writes. *)
Definition printSection (n : string) (fs : Pflag.FlagSet) (cols : Z)
    : option string :=
  wideFS ← wideFSOf fs cols;
  letters ← headerLetters n;
  let buf :=
    Fmt.Sprintf (nl +:+ "%s flags:" +:+ nl +:+ "%s")
      [Fmt.Str letters; Fmt.Str (FlagUsagesWrapped wideFS cols)] in
  if (24 <? cols)%Z then
    let i := Strings.Index buf (zzzOf cols) in
    upto ← sliceTo buf i;
    let lines := Strings.Split upto "010"%char in
    Some (Strings.Join (firstn (List.length lines - 1) lines) nl +:+ nl)
  else Some buf.

(** One turn of [for _, name := range fss.Order]: a name without a flag
    set gives the nil pointer, on which [HasFlags] panics. *)
Definition printGroup (h : list Pflag.FlagSet) (fss : NamedFlagSets)
    (cols : Z) (n : string) : option string :=
  p ← mapIndex (FlagSets fss) n;
  fs ← h !! p;
  if negb (Pflag.HasFlags fs) then Some ""
  else printSection n fs cols.

(** [PrintSections(w, fss, cols)]: the text written to [w]. *)
Definition PrintSections (h : list Pflag.FlagSet) (fss : NamedFlagSets)
    (cols : Z) : option string :=
  texts ← mapM (printGroup h fss cols) (Order fss);
  Some (String.concat "" texts).

End Renderer.

(** ** util.go *)

(** What [term.GetFdInfo] and [term.GetWinsize] find about a writer. *)
Inductive TermInfo :=
| NotTerminal
| WinsizeFails (err : error)
| Winsize (width height : Z).

(** [TerminalSize(w)]: width, height and error. *)
Definition TerminalSize (t : TermInfo) : Z * Z * option error :=
  match t with
  | NotTerminal => (0%Z, 0%Z, Some (Fmt.Errorf "given writer is no terminal" []))
  | WinsizeFails err => (0%Z, 0%Z, Some err)
  | Winsize width height => (width, height, None)
  end.

(** A call on the flag set a pointer refers to. *)
Definition onFlagSet (p : loc) (f : Pflag.FlagSet -> option Pflag.FlagSet)
    (h : list Pflag.FlagSet) : option (list Pflag.FlagSet) :=
  fs ← h !! p;
  fs' ← f fs;
  Some (<[p := fs']> h).

(** [AddGlobalFlags(fs, name)]. *)
Definition AddGlobalFlags (fs : loc) (n : string) (h : list Pflag.FlagSet)
    : option (list Pflag.FlagSet) :=
  onFlagSet fs
    (fun f => Pflag.BoolP f "help" "h" false
                (Fmt.Sprintf "help for %s" [Fmt.Str n])) h.

(** Modelled from the spec: [AddFlags(fs)] is not among the sources; it
    registers the version flag of section 6, here a flag named
    [version]. *)
Definition AddFlags (fs : loc) (h : list Pflag.FlagSet)
    : option (list Pflag.FlagSet) :=
  onFlagSet fs
    (fun f => Pflag.AddFlag f
       {| Pflag.Name := "version"; Pflag.Shorthand := "";
          Pflag.Usage := "Print version information and quit.";
          Pflag.Value := Pflag.boolValue; Pflag.DefValue := "false";
          Pflag.NoOptDefVal := "true"; Pflag.Deprecated := "";
          Pflag.Hidden := false; Pflag.ShorthandDeprecated := "" |}) h.

(** Modelled from the spec: [addConfigFlag(basename, fs)] is not among
    the sources; it registers the config-file flag of section 6, here a
    flag named [config]. *)
Definition addConfigFlag (basename : string) (fs : loc)
    (h : list Pflag.FlagSet) : option (list Pflag.FlagSet) :=
  onFlagSet fs
    (fun f => Pflag.AddFlag f
       {| Pflag.Name := "config"; Pflag.Shorthand := "";
          Pflag.Usage := "Read configuration from specified `FILE`.";
          Pflag.Value := Pflag.stringValue; Pflag.DefValue := "";
          Pflag.NoOptDefVal := ""; Pflag.Deprecated := "";
          Pflag.Hidden := false; Pflag.ShorthandDeprecated := "" |}) h.

(** ** The package [github.com/marmotedu/errors] *)

(** The names that occur in a list, each once, in the order in which
    they first occur. *)
Fixpoint distinct (l : list string) : list string :=
  match l with
  | [] => []
  | x :: l' => x :: filter (fun y => y <> x) (distinct l')
  end.

(** [aggregate.Error()] for a list of errors none of which is itself an
    aggregate: one message as it is, several each once, separated by
    commas, between brackets when two or more differ. *)
Definition aggregateMessage (errs : list error) : string :=
  match errs with
  | [] => ""
  | [e] => Error e
  | _ =>
      match distinct (List.map Error errs) with
      | [msg] => msg
      | msgs => "[" +:+ Strings.Join msgs ", " +:+ "]"
      end
  end.

(** [errors.NewAggregate(errlist)]: nil for the empty list.  The entries
    of the list are non-nil errors. *)
Definition NewAggregate (errlist : list error) : option error :=
  match errlist with
  | [] => None
  | _ => Some (mkError "errors.aggregate" (aggregateMessage errlist))
  end.

(** ** The package [github.com/spf13/cobra] *)
Module Cobra.

(** [c.Name()]: the use line up to its first space. *)
Definition nameOf (use : string) : string :=
  match PflagText.cut " "%char use with
  | Some (before, _) => before
  | None => use
  end.

(** A command below the root: the texts of its struct literal. *)
Record Sub := mkSub {
  subUse : string;
  subShort : string;
  subLong : string
}.

(** The fields of the root [cobra.Command] the sources set.  [CmdT] is
    the command as a callback receives it. *)
Record Command (CmdT : Type) := mkCommand {
  Use : string;
  Short : string;
  Long : string;
  SilenceUsage : bool;
  SilenceErrors : bool;
  Args : option (CmdT -> list string -> option error);
  (** [cmd.AddCommand] and [cmd.SetHelpCommand] *)
  subcommands : list Sub;
  helpCommand : option Sub;
  (** whether [RunE] is bound to [a.runCommand] *)
  RunE : bool;
  (** [cmd.Flags()] *)
  Flags : Pflag.FlagSet;
  (** the width at which the help and usage functions print the
      sections, once [SetHelpFunc] and [SetUsageFunc] were called *)
  sectionCols : option Z
}.

Arguments mkCommand {CmdT}.
Arguments Use {CmdT}.
Arguments Short {CmdT}.
Arguments Long {CmdT}.
Arguments SilenceUsage {CmdT}.
Arguments SilenceErrors {CmdT}.
Arguments Args {CmdT}.
Arguments subcommands {CmdT}.
Arguments helpCommand {CmdT}.
Arguments RunE {CmdT}.
Arguments Flags {CmdT}.
Arguments sectionCols {CmdT}.

End Cobra.

(** ** help.go *)

(** [helpCommand(name)]: the texts of the command; its handler prints the
    help of the command the arguments name. *)
Definition helpCommand (n : string) : Cobra.Sub :=
  {| Cobra.subUse := "help [command]";
     Cobra.subShort := "Help about any command.";
     Cobra.subLong :=
       "Help provides help for any command in the application." +:+ nl +:+
       "Simply type " +:+ n +:+ " help [path to command] for full details." |}.

(** ** The App: options, NewApp, buildCommand, Run *)

(** The calls on the options object, in the order they were made. *)
Inductive Call := CallComplete | CallValidate | CallString.

Section Application.

(** [U]: the state of the caller's options object.  [CmdT]: a command as
    a callback receives it, with its [CommandPath()].  [Command]: the
    package's own command type (command.go is not among the sources) with
    its conversion [cobraCommand()]. *)
Variable U : Type.
Variable CmdT : Type.
Variable CommandPath : CmdT -> string.
Variable Command : Type.
Variable cobraCommand : Command -> Cobra.Sub.

(** What the process has done so far. *)
Record World := mkWorld {
  user : U;
  stdout : string;
  stderr : string;
  (** the lines [logrus.Infof] wrote *)
  logs : list string;
  calls : list Call;
  (** the status [os.Exit] was called with *)
  exitStatus : option Z
}.

Definition setUser (u : U) (c : Call) (w : World) : World :=
  mkWorld u (stdout w) (stderr w) (logs w) (calls w ++ [c]) (exitStatus w).

(** [fmt.Printf(format, args...)] writes to the standard output. *)
Definition Printf (format : string) (a : list Fmt.arg) (w : World) : World :=
  mkWorld (user w) (stdout w +:+ Fmt.Sprintf format a) (stderr w) (logs w)
    (calls w) (exitStatus w).

(** [logrus.Infof(format, args...)]. *)
Definition Infof (format : string) (a : list Fmt.arg) (w : World) : World :=
  mkWorld (user w) (stdout w) (stderr w) (logs w ++ [Fmt.Sprintf format a])
    (calls w) (exitStatus w).

(** [os.Exit(code)]. *)
Definition osExit (code : Z) (w : World) : World :=
  mkWorld (user w) (stdout w) (stderr w) (logs w) (calls w) (Some code).

(** [CliOptions], with the two optional interfaces an options object may
    implement besides: [CompletableOptions] and [PrintableOptions]. *)
Record CliOptions := mkCliOptions {
  Flags : list Pflag.FlagSet -> NamedFlagSets * list Pflag.FlagSet;
  Validate : U -> list error * U;
  Complete : option (U -> option error * U);
  StringOf : option (U -> string * U)
}.

(** RunFunc defines the application's startup callback function *)
Definition RunFunc : Type := string -> World -> option error * World.

(** [cobra.PositionalArgs]. *)
Definition PositionalArgs : Type := CmdT -> list string -> option error.

(** App is the main structure of a cli application. *)
Record App := mkApp {
  basename : string;
  name : string;
  description : string;
  options : option CliOptions;
  runFunc : option RunFunc;
  silence : bool;
  noVersion : bool;
  noConfig : bool;
  commands : list Command;
  args : option PositionalArgs;
  cmd : option (Cobra.Command CmdT)
}.

(** Option defines optional parameters for initializing the application
    structure. *)
Definition Option : Type := App -> App.

Definition WithRunFunc (run : option RunFunc) : Option :=
  fun a => mkApp (basename a) (name a) (description a) (options a) run
             (silence a) (noVersion a) (noConfig a) (commands a) (args a) (cmd a).

Definition WithOptions (opt : option CliOptions) : Option :=
  fun a => mkApp (basename a) (name a) (description a) opt (runFunc a)
             (silence a) (noVersion a) (noConfig a) (commands a) (args a) (cmd a).

Definition WithDescription (d : string) : Option :=
  fun a => mkApp (basename a) (name a) d (options a) (runFunc a)
             (silence a) (noVersion a) (noConfig a) (commands a) (args a) (cmd a).

Definition WithSilence : Option :=
  fun a => mkApp (basename a) (name a) (description a) (options a) (runFunc a)
             true (noVersion a) (noConfig a) (commands a) (args a) (cmd a).

Definition WithNoVersion : Option :=
  fun a => mkApp (basename a) (name a) (description a) (options a) (runFunc a)
             (silence a) true (noConfig a) (commands a) (args a) (cmd a).

Definition WithNoConfig : Option :=
  fun a => mkApp (basename a) (name a) (description a) (options a) (runFunc a)
             (silence a) (noVersion a) true (commands a) (args a) (cmd a).

Definition WithValidArgs (v : option PositionalArgs) : Option :=
  fun a => mkApp (basename a) (name a) (description a) (options a) (runFunc a)
             (silence a) (noVersion a) (noConfig a) (commands a) v (cmd a).

(** The validator [WithDefaultValidArgs] installs:
    [for _, arg := range args { if len(arg) > 0 { return fmt.Errorf(...) } }]. *)
Fixpoint defaultValidArgs (c : CmdT) (l : list string) : option error :=
  match l with
  | [] => None
  | arg :: rest =>
      if (0 <? String.length arg)%nat
      then Some (Fmt.Errorf "%q does not take any arguments, got %q"
                   [Fmt.Str (CommandPath c); Fmt.Str arg])
      else defaultValidArgs c rest
  end.

Definition WithDefaultValidArgs : Option :=
  WithValidArgs (Some defaultValidArgs).

Definition setCmd (c : Cobra.Command CmdT) (a : App) : App :=
  mkApp (basename a) (name a) (description a) (options a) (runFunc a)
    (silence a) (noVersion a) (noConfig a) (commands a) (args a) (Some c).

(** What [buildCommand] reads from outside the package: [FormatBasename]
    (not among the sources), the terminal behind the standard output, and
    the order in which [range] visits a map, which Go leaves open. *)
Variable FormatBasename : string -> string.
Variable stdoutTerm : TermInfo.
Variable rangeOrder : gmap string loc -> list (string * loc).

(** [for _, f := range namedFlagSets.FlagSets { fs.AddFlagSet(f) }]. *)
Definition mergeFlagSets (fs : Pflag.FlagSet) (nfs : NamedFlagSets)
    (h : list Pflag.FlagSet) : option Pflag.FlagSet :=
  match FlagSets nfs with
  | None => Some fs
  | Some m =>
      fold_left
        (fun acc kv =>
           g ← acc;
           f ← h !! kv.2;
           Pflag.AddFlagSet g f)
        (rangeOrder m) (Some fs)
  end.

(** [a.buildCommand()]: the App with its command, and the variable
    [namedFlagSets], which the help and usage functions keep, with the
    heap of flag sets. *)
Definition buildCommand (a : App) (h : list Pflag.FlagSet)
    : option (App * NamedFlagSets * list Pflag.FlagSet) :=
  let use := FormatBasename (basename a) in
  let subs :=
    match commands a with
    | [] => ([], None)
    | _ => (List.map cobraCommand (commands a), Some (helpCommand (name a)))
    end in
  let runE := match runFunc a with Some _ => true | None => false end in
  let flags0 := Pflag.NewFlagSet (Cobra.nameOf use) in
  '(flags, cols, namedFlagSets, h) ←
    match options a with
    | Some o =>
        let '(nfs, h1) := Flags o h in
        fs ← mergeFlagSets flags0 nfs h1;
        Some (fs, Some (TerminalSize stdoutTerm).1.1, nfs, h1)
    | None => Some (flags0, None, zeroNamedFlagSets, h)
    end;
  let c :=
    {| Cobra.Use := use; Cobra.Short := name a; Cobra.Long := description a;
       Cobra.SilenceUsage := true; Cobra.SilenceErrors := true;
       Cobra.Args := args a;
       Cobra.subcommands := subs.1; Cobra.helpCommand := subs.2;
       Cobra.RunE := runE; Cobra.Flags := flags;
       Cobra.sectionCols := cols |} in
  (* if a.noVersion { AddFlags(namedFlagSets.FlagSet("global")) } *)
  '(h, namedFlagSets) ←
    (if noVersion a then
       let '(p, nfs, h) := FlagSet namedFlagSets h "global" in
       h ← AddFlags p h; Some (h, nfs)
     else Some (h, namedFlagSets));
  (* if !a.noConfig { addConfigFlag(a.basename, namedFlagSets.FlagSet("global")) } *)
  '(h, namedFlagSets) ←
    (if negb (noConfig a) then
       let '(p, nfs, h) := FlagSet namedFlagSets h "global" in
       h ← addConfigFlag (basename a) p h; Some (h, nfs)
     else Some (h, namedFlagSets));
  (* AddGlobalFlags(namedFlagSets.FlagSet("global"), cmd.Name()) *)
  let '(p, namedFlagSets, h) := FlagSet namedFlagSets h "global" in
  h ← AddGlobalFlags p (Cobra.nameOf use) h;
  Some (setCmd c a, namedFlagSets, h).

(** [NewApp(name, basename, opts...)]. *)
Definition NewApp (n b : string) (opts : list Option) (h : list Pflag.FlagSet)
    : option (App * NamedFlagSets * list Pflag.FlagSet) :=
  let a := mkApp b n "" None None false false false [] None None in
  let a := fold_left (fun a opt => opt a) opts a in
  buildCommand a h.

(** [a.cmd.Execute()] belongs to the command library, and whether colour
    is on to the colour library. *)
Variable Execute : Cobra.Command CmdT -> World -> option error * World.
Variable NoColor : bool.

(** Run is used to launch the application *)
Definition Run (a : App) (w : World) : option World :=
  c ← cmd a;
  let '(err, w) := Execute c w in
  match err with
  | Some err =>
      (* fmt.Printf("%v %v\n", color.RedString("Error:", err)) *)
      let w := Printf ("%v %v" +:+ nl)
                 [Fmt.Str (Color.RedString NoColor "Error:" [Fmt.Err err])] w in
      Some (osExit 1 w)
  | None => Some w
  end.

Definition progressMessage : string := Color.GreenString NoColor "==>" [].

(** [a.applyOptionRules()]; [a.options] is not nil when [runCommand]
    calls it. *)
Definition applyOptionRules (a : App) (w : World) : option (option error * World) :=
  o ← options a;
  let '(err, w) :=
    match Complete o with
    | Some complete =>
        let '(err, u) := complete (user w) in
        (err, setUser u CallComplete w)
    | None => (None, w)
    end in
  match err with
  | Some err => Some (Some err, w)
  | None =>
      let '(errs, u) := Validate o (user w) in
      let w := setUser u CallValidate w in
      if negb (List.length errs =? 0)%nat then Some (NewAggregate errs, w)
      else
        match StringOf o with
        | Some str =>
            let '(text, u) := str (user w) in
            let w := setUser u CallString w in
            Some (None, Infof "%v Config: `%s`"
                          [Fmt.Str progressMessage; Fmt.Str text] w)
        | None => Some (None, w)
        end
  end.

End Application.

Arguments mkWorld {U}.
Arguments user {U}.
Arguments stdout {U}.
Arguments stderr {U}.
Arguments logs {U}.
Arguments calls {U}.
Arguments exitStatus {U}.
Arguments setUser {U}.
Arguments osExit {U}.
Arguments mkCliOptions {U}.
Arguments Flags {U}.
Arguments Validate {U}.
Arguments Complete {U}.
Arguments StringOf {U}.
Arguments mkApp {U CmdT Command}.
Arguments basename {U CmdT Command}.
Arguments name {U CmdT Command}.
Arguments description {U CmdT Command}.
Arguments options {U CmdT Command}.
Arguments runFunc {U CmdT Command}.
Arguments silence {U CmdT Command}.
Arguments noVersion {U CmdT Command}.
Arguments noConfig {U CmdT Command}.
Arguments commands {U CmdT Command}.
Arguments args {U CmdT Command}.
Arguments cmd {U CmdT Command}.
Arguments WithRunFunc {U CmdT Command}.
Arguments WithOptions {U CmdT Command}.
Arguments WithDescription {U CmdT Command}.
Arguments WithSilence {U CmdT Command}.
Arguments WithNoVersion {U CmdT Command}.
Arguments WithNoConfig {U CmdT Command}.
Arguments WithValidArgs {U CmdT Command}.
Arguments WithDefaultValidArgs {U CmdT} CommandPath {Command}.
Arguments defaultValidArgs {CmdT} CommandPath c l.
Arguments setCmd {U CmdT Command}.
Arguments buildCommand {U CmdT Command}.
Arguments NewApp {U CmdT Command}.
Arguments Run {U CmdT Command}.
Arguments applyOptionRules {U CmdT Command}.

(** ** Notions the statements use *)

(** [sub] occurs in [s]. *)
Definition hasText (s sub : string) : Prop :=
  exists before after, s = before +:+ sub +:+ after.

(** The App before any option is applied:
    [&App{name: name, basename: basename}]. *)
Definition freshApp {U CmdT Command} (n b : string) : App U CmdT Command :=
  mkApp b n "" None None false false false [] None None.

(** The options of a list applied one after the other, first to last. *)
Definition applyAll {U CmdT Command} (opts : list (Option U CmdT Command))
    (a : App U CmdT Command) : App U CmdT Command :=
  fold_left (fun a opt => opt a) opts a.

(** What [applyOptionRules] has done once the completion step is over:
    the failure of [Complete()], if any, and the world with the state of
    the options object and the call. *)
Definition afterComplete {U} (o : CliOptions U) (w : World U)
    : option error * World U :=
  match Complete o with
  | Some complete =>
      ((complete (user w)).1, setUser (complete (user w)).2 CallComplete w)
  | None => (None, w)
  end.

(** The invariant of a [NamedFlagSets] and the heap its flag sets are in:
    [Order] has no name twice, holds exactly the names of the map, and
    the map sends different names to different flag sets of the heap. *)
Definition storeOK (nfs : NamedFlagSets) (h : list Pflag.FlagSet) : Prop :=
  NoDup (Order nfs)
  /\ (forall n, n ∈ Order nfs <-> is_Some (mapIndex (FlagSets nfs) n))
  /\ (forall n p, mapIndex (FlagSets nfs) n = Some p -> (p < List.length h)%nat)
  /\ (forall n m p, mapIndex (FlagSets nfs) n = Some p ->
                    mapIndex (FlagSets nfs) m = Some p -> n = m).

(** Whether the group [group] holds a flag named [flagName]. *)
Definition registered (h : list Pflag.FlagSet) (nfs : NamedFlagSets)
    (group flagName : string) : bool :=
  match mapIndex (FlagSets nfs) group with
  | Some p =>
      match h !! p with
      | Some fs =>
          match Pflag.Lookup fs flagName with
          | Some _ => true
          | None => false
          end
      | None => false
      end
  | None => false
  end.

(** What every flag set of the library satisfies, its fields being
    private: names differ, a shorthand is at most one byte, shorthands
    differ. *)
Definition FlagSetOK (fs : Pflag.FlagSet) : Prop :=
  NoDup (Pflag.Name <$> Pflag.orderedFormal fs)
  /\ Forall (fun f => (String.length (Pflag.Shorthand f) <= 1)%nat)
       (Pflag.orderedFormal fs)
  /\ NoDup (filter (fun x => x <> "") (Pflag.Shorthand <$> Pflag.orderedFormal fs)).

(** The groups of a [NamedFlagSets], in the order of [Order], each with
    the flag set its name refers to. *)
Definition groupsOf (h : list Pflag.FlagSet) (fss : NamedFlagSets)
    : option (list (string * Pflag.FlagSet)) :=
  mapM (fun n => p ← mapIndex (FlagSets fss) n; fs ← h !! p; Some (n, fs))
    (Order fss).

(** The flag set [wideFS] is after [wideFS.AddFlagSet(fs)]. *)
Definition copyOf (fs : Pflag.FlagSet) : Pflag.FlagSet :=
  Pflag.mkFlagSet "" (Pflag.visitOrder fs) true.

(** The flag [wideFS.Int(zzz, 0, zzz)] adds. *)
Definition zzzFlag (cols : Z) : Pflag.Flag :=
  {| Pflag.Name := zzzOf cols; Pflag.Shorthand := ""; Pflag.Usage := zzzOf cols;
     Pflag.Value := Pflag.intValue; Pflag.DefValue := "0";
     Pflag.NoOptDefVal := ""; Pflag.Deprecated := ""; Pflag.Hidden := false;
     Pflag.ShorthandDeprecated := "" |}.

(** The flag set the usage text of a group is asked of: the flags of the
    group and, above 24 columns, the flag named by the filler. *)
Definition wideOf (fs : Pflag.FlagSet) (cols : Z) : Pflag.FlagSet :=
  if (24 <? cols)%Z
  then Pflag.mkFlagSet "" (Pflag.visitOrder fs ++ [zzzFlag cols]) true
  else copyOf fs.

(** The first byte of a name, as a string. *)
Definition firstByte (n : string) : string :=
  match n with
  | EmptyString => ""
  | String c _ => String c ""
  end.

(** The header of the section of a group: an empty line, then the first
    byte of the name twice, in upper case, and [ flags:]. *)
Definition headerOf (unicodeUpper : string -> string) (n : string) : string :=
  nl +:+ Strings.ToUpper unicodeUpper (firstByte n +:+ firstByte n)
     +:+ " flags:" +:+ nl.

(** What a group must satisfy for its section to be rendered: a name
    that is not empty, a flag set of the library, and no flag that has
    the name of the filler already. *)
Definition groupOK (cols : Z) (g : string * Pflag.FlagSet) : Prop :=
  Pflag.HasFlags g.2 = true ->
  g.1 <> ""
  /\ FlagSetOK g.2
  /\ ((24 < cols)%Z -> Pflag.Lookup g.2 (zzzOf cols) = None).

(** Whether the byte [c] occurs in a text. *)
Fixpoint occurs (c : ascii) (s : string) : bool :=
  match s with
  | EmptyString => false
  | String x s' => Ascii.eqb x c || occurs c s'
  end.


(** The number of line breaks in a text. *)
Fixpoint lineBreaks (s : string) : nat :=
  match s with
  | EmptyString => 0
  | String c s' => (if Ascii.eqb c "010"%char then 1 else 0) + lineBreaks s'
  end.

(** The whole lines of a text: the text up to and with its last line
    break. *)
Fixpoint wholeLines (s : string) : string :=
  match s with
  | EmptyString => ""
  | String c s' => if (lineBreaks s =? 0)%nat then "" else String c (wholeLines s')
  end.

(** The usage text of a group up to the first occurrence of the filler:
    [buf.String()[:i]] without the header. *)
Definition beforeFiller (usages : string) (cols : Z) : string :=
  PflagText.take usages (Z.to_nat (Strings.Index usages (zzzOf cols))).

(** ** Instances the statements are run on *)

Definition helpFlag : Pflag.Flag :=
  Pflag.mkFlag "help" "h" "help for app" Pflag.boolValue "false" "true" ""
    false "".

Definition logLevelFlag : Pflag.Flag :=
  Pflag.mkFlag "log-level" "" "the `level` of the messages that are logged"
    Pflag.stringValue "info" "" "" false "".



Definition globalFlags : Pflag.FlagSet :=
  Pflag.mkFlagSet "global" [logLevelFlag; helpFlag] true.

(** Two groups, [global] and [misc], in this order. *)
Definition demoSets : NamedFlagSets :=
  mkNamedFlagSets ["global"; "misc"]
    (Some (<["global" := 0%nat]> (<["misc" := 1%nat]> ∅))).

(** [global] with two flags, [misc] without a flag. *)
Definition demoHeap : list Pflag.FlagSet :=
  [globalFlags; Pflag.NewFlagSet "misc"].


(** Three references to two groups, on the zero value and an empty
    heap. *)
Definition demoRefs : list string := ["global"; "misc"; "global"].

Definition demoCalls : list loc * NamedFlagSets * list Pflag.FlagSet :=
  FlagSetCalls zeroNamedFlagSets [] demoRefs.

Definition noUpper : string -> string := fun s => s.

Definition world0 : World unit := mkWorld tt "" "" [] [] None.

(** An options object whose [Complete()] fails. *)
Definition incompleteOptions : CliOptions unit :=
  mkCliOptions (fun h => (zeroNamedFlagSets, h))
    (fun u => ([], u))
    (Some (fun u => (Some (errorsNew "incomplete"), u)))
    (Some (fun u => ("dump", u))).

(** An options object whose [Validate()] returns two errors. *)
Definition invalidOptions : CliOptions unit :=
  mkCliOptions (fun h => (zeroNamedFlagSets, h))
    (fun u => ([errorsNew "errA"; errorsNew "errB"], u))
    (Some (fun u => (None, u)))
    (Some (fun u => ("dump", u))).

Definition appWith (o : CliOptions unit) : App unit unit unit :=
  WithOptions (Some o) (freshApp "app" "app").

(** [NewApp("app", "app")] in a process whose standard output is no
    terminal. *)
Definition newDemoApp (opts : list (Option unit unit unit))
    : option (App unit unit unit * NamedFlagSets * list Pflag.FlagSet) :=
  NewApp (fun _ : unit => helpCommand "app") (fun b => b) NotTerminal
    map_to_list "app" "app" opts [].

(** The command and the App [NewApp("app", "app")] returns. *)
Definition demoCommand : Cobra.Command unit :=
  Cobra.mkCommand "app" "app" "" true true None [] None false
    (Pflag.NewFlagSet "app") None.

Definition demoApp : App unit unit unit :=
  setCmd demoCommand (freshApp "app" "app").

(** An execution of the root command that fails with the error [boom],
    and one that succeeds. *)
Definition executeFails (c : Cobra.Command unit) (w : World unit)
    : option error * World unit :=
  (Some (errorsNew "boom"), w).

Definition executeSucceeds (c : Cobra.Command unit) (w : World unit)
    : option error * World unit :=
  (None, w).

(** * Properties *)

(** ** Strings *)

Lemma append_empty_r (s : string) : s +:+ "" = s.
Proof. induction s as [|c s IH]; simpl; [reflexivity | now rewrite IH]. Qed.

Lemma append_assoc (a b c : string) : (a +:+ b) +:+ c = a +:+ (b +:+ c).
Proof. induction a as [|x a IH]; simpl; [reflexivity | now rewrite IH]. Qed.

Lemma append_length (a b : string) :
  String.length (a +:+ b) = (String.length a + String.length b)%nat.
Proof. induction a as [|x a IH]; simpl; [reflexivity | now rewrite IH]. Qed.

Lemma prefix_append (sub rest : string) : String.prefix sub (sub +:+ rest) = true.
Proof.
  induction sub as [|c sub IH]; simpl.
  - now destruct rest.
  - destruct (ascii_dec c c) as [_|Hne]; [exact IH | now destruct Hne].
Qed.

Lemma Index_unfold (s sub : string) :
  Strings.Index s sub =
    if String.prefix sub s then 0%Z
    else match s with
         | EmptyString => (-1)%Z
         | String _ s' =>
             if (Strings.Index s' sub <? 0)%Z then (-1)%Z
             else (Strings.Index s' sub + 1)%Z
         end.
Proof. destruct s; reflexivity. Qed.

Lemma Index_nonneg_or_none (s sub : string) :
  (Strings.Index s sub = -1 \/ 0 <= Strings.Index s sub)%Z.
Proof.
  induction s as [|c s IH]; rewrite Index_unfold;
    destruct (String.prefix sub _); try (right; lia); [left; reflexivity |].
  destruct (Z.ltb_spec (Strings.Index s sub) 0); [left | right]; lia.
Qed.

(** A text that occurs is found by [strings.Contains]. *)
Lemma Contains_intro (s sub : string) : hasText s sub -> Strings.Contains s sub = true.
Proof.
  intros (before & after & ->). unfold Strings.Contains.
  apply Z.leb_le.
  induction before as [|c before IH].
  - rewrite Index_unfold. simpl. rewrite prefix_append. lia.
  - rewrite Index_unfold. destruct (String.prefix sub _); [lia |].
    simpl.
    destruct (Z.ltb_spec (Strings.Index (before +:+ sub +:+ after) sub) 0); lia.
Qed.

Lemma hasText_refl (s : string) : hasText s s.
Proof. exists "", "". now rewrite append_empty_r. Qed.

Lemma hasText_app_l (a s sub : string) : hasText s sub -> hasText (a +:+ s) sub.
Proof.
  intros (before & after & ->). exists (a +:+ before), after.
  now rewrite append_assoc.
Qed.

Lemma hasText_app_r (s b sub : string) : hasText s sub -> hasText (s +:+ b) sub.
Proof.
  intros (before & after & ->). exists before, (after +:+ b).
  now rewrite !append_assoc.
Qed.

(** ** WithDefaultValidArgs *)
Section ValidArgs.

Context {CmdT : Type} (CommandPath : CmdT -> string).

Lemma defaultValidArgs_skips_empty (c : CmdT) (pre rest : list string) :
  Forall (fun x => String.length x = 0%nat) pre ->
  defaultValidArgs CommandPath c (pre ++ rest) = defaultValidArgs CommandPath c rest.
Proof.
  induction 1 as [|x pre Hx _ IH]; simpl; [reflexivity |].
  now rewrite Hx.
Qed.

Lemma defaultValidArgs_message (path arg : string) :
  Error (Fmt.Errorf "%q does not take any arguments, got %q"
           [Fmt.Str path; Fmt.Str arg])
  = Fmt.Quote path +:+ " does not take any arguments, got " +:+ Fmt.Quote arg.
Proof.
  unfold Fmt.Errorf, errorsNew. simpl.
  now rewrite append_empty_r.
Qed.

(** C10.  The validator of [WithDefaultValidArgs] returns an error exactly
    when some argument has a non-zero length; a list of empty strings
    only is accepted; the error is the one formatted from the command
    path and the first argument of non-zero length, and its message
    quotes both. *)
Theorem defaultValidArgs_rejects_first_nonempty (c : CmdT) (l : list string) :
  (is_Some (defaultValidArgs CommandPath c l)
     <-> Exists (fun arg => (0 < String.length arg)%nat) l)
  /\ (Forall (fun arg => arg = "") l -> defaultValidArgs CommandPath c l = None)
  /\ (forall pre arg post,
        l = pre ++ arg :: post ->
        Forall (fun x => String.length x = 0%nat) pre ->
        (0 < String.length arg)%nat ->
        exists e,
          defaultValidArgs CommandPath c l = Some e
          /\ e = Fmt.Errorf "%q does not take any arguments, got %q"
                   [Fmt.Str (CommandPath c); Fmt.Str arg]
          /\ Error e = Fmt.Quote (CommandPath c)
                         +:+ " does not take any arguments, got "
                         +:+ Fmt.Quote arg).
Proof.
  split; [| split].
  - induction l as [|x l IH]; simpl.
    + split; [intros [? [=]] | intros H; inversion H].
    + destruct (Nat.ltb_spec 0 (String.length x)) as [Hlt|Hge].
      * split; [intros _; now left | intros _; eexists; reflexivity].
      * rewrite IH. split; [now right |].
        intros H; inversion H; subst; [lia | assumption].
  - induction 1 as [|x l -> _ IH]; simpl; [reflexivity | exact IH].
  - intros pre arg post -> Hpre Harg.
    rewrite defaultValidArgs_skips_empty by assumption. simpl.
    destruct (Nat.ltb_spec 0 (String.length arg)); [| lia].
    eexists; split; [reflexivity | split; [reflexivity |]].
    apply defaultValidArgs_message.
Qed.

End ValidArgs.

Lemma defaultValidArgs_rejects_first_nonempty_witness :
  exists e,
    defaultValidArgs (fun path : string => path) "app" [""; "x"; "y"] = Some e
    /\ e = Fmt.Errorf "%q does not take any arguments, got %q"
             [Fmt.Str "app"; Fmt.Str "x"]
    /\ Error e = Fmt.Quote "app" +:+ " does not take any arguments, got "
                   +:+ Fmt.Quote "x".
Proof.
  apply (proj2 (proj2 (defaultValidArgs_rejects_first_nonempty
                         (fun path : string => path) "app" [""; "x"; "y"]))
           [""] "x" ["y"]).
  - reflexivity.
  - repeat constructor.
  - simpl. lia.
Defined.

(** ** applyOptionRules and Run *)
Section Lifecycle.

Context {U CmdT Command : Type}.
Variable Execute : Cobra.Command CmdT -> World U -> option error * World U.
Variable NoColor : bool.

Implicit Types (a : App U CmdT Command) (o : CliOptions U) (w : World U).

(** C7.  When the options object implements [Complete()] and the call
    fails, [applyOptionRules] returns that failure, and the only call made
    on the options object is the one of [Complete()]: [Validate()] is not
    invoked. *)
Theorem applyOptionRules_complete_failure a o w complete err u :
  options a = Some o ->
  Complete o = Some complete ->
  complete (user w) = (Some err, u) ->
  exists w',
    applyOptionRules NoColor a w = Some (Some err, w')
    /\ calls w' = calls w ++ [CallComplete]
    /\ (CallValidate ∉ drop (List.length (calls w)) (calls w'))
    /\ logs w' = logs w
    /\ user w' = u.
Proof.
  intros Ho Hc Hrun. unfold applyOptionRules.
  rewrite Ho. simpl. rewrite Hc, Hrun.
  eexists; split; [reflexivity |]. simpl.
  repeat split; try reflexivity.
  rewrite drop_app_length. intros Hin.
  apply list_elem_of_singleton in Hin. discriminate.
Qed.

Lemma Join_hasText (msgs : list string) (sep msg : string) :
  msg ∈ msgs -> hasText (Strings.Join msgs sep) msg.
Proof.
  induction msgs as [|x msgs IH]; intros Hin; [inversion Hin |].
  destruct msgs as [|y msgs].
  - apply list_elem_of_singleton in Hin as ->. apply hasText_refl.
  - apply elem_of_cons in Hin as [-> | Hin].
    + change (hasText (x +:+ sep +:+ Strings.Join (y :: msgs) sep) x).
      exists "", (sep +:+ Strings.Join (y :: msgs) sep). reflexivity.
    + change (hasText (x +:+ sep +:+ Strings.Join (y :: msgs) sep) msg).
      apply hasText_app_l, hasText_app_l, IH, Hin.
Qed.

Lemma distinct_elem_of (l : list string) (x : string) : x ∈ l -> x ∈ distinct l.
Proof.
  induction l as [|y l IH]; intros Hin; [inversion Hin |]. simpl.
  destruct (decide (x = y)) as [-> | Hne]; [left |].
  right. apply list_elem_of_filter. split; [exact Hne |].
  apply IH. apply elem_of_cons in Hin as [? | ?]; [contradiction | assumption].
Qed.

(** The message of an aggregate holds the message of each of its errors. *)
Lemma aggregateMessage_hasText (errs : list error) (e : error) :
  e ∈ errs -> hasText (aggregateMessage errs) (Error e).
Proof.
  intros Hin. unfold aggregateMessage.
  destruct errs as [|e1 [|e2 errs]]; [inversion Hin | |].
  - apply list_elem_of_singleton in Hin as ->. apply hasText_refl.
  - assert (Hmsg : Error e ∈ distinct (List.map Error (e1 :: e2 :: errs))).
    { apply distinct_elem_of. apply list_elem_of_In, in_map, list_elem_of_In, Hin. }
    destruct (distinct (List.map Error (e1 :: e2 :: errs))) as [|m1 [|m2 ms]].
    + inversion Hmsg.
    + apply list_elem_of_singleton in Hmsg as ->. apply hasText_refl.
    + apply (hasText_app_l "["), hasText_app_r.
      now apply Join_hasText.
Qed.

(** C8.  When [Validate()] returns a list that is not empty,
    [applyOptionRules] returns one failure, the aggregate of the list;
    its message holds the message of every error of the list; the
    string dump is not asked for and nothing is logged. *)
Theorem applyOptionRules_validate_failure a o w w1 errs u :
  options a = Some o ->
  afterComplete o w = (None, w1) ->
  Validate o (user w1) = (errs, u) ->
  errs <> [] ->
  exists agg w',
    applyOptionRules NoColor a w = Some (Some agg, w')
    /\ NewAggregate errs = Some agg
    /\ (forall e, e ∈ errs -> hasText (Error agg) (Error e))
    /\ (forall e, e ∈ errs -> Strings.Contains (Error agg) (Error e) = true)
    /\ calls w' = calls w1 ++ [CallValidate]
    /\ (CallString ∉ drop (List.length (calls w)) (calls w'))
    /\ logs w' = logs w.
Proof.
  intros Ho Hc Hv Hne. unfold applyOptionRules. rewrite Ho. simpl.
  unfold afterComplete in Hc.
  assert (Hagg : forall e, e ∈ errs ->
            hasText (aggregateMessage errs) (Error e))
    by (intros e; apply aggregateMessage_hasText).
  destruct errs as [|e1 errs]; [contradiction |].
  destruct (Complete o) as [complete|].
  - destruct (complete (user w)) as [cerr u1] eqn:Hrun. simpl in Hc.
    injection Hc as -> <-. simpl in Hv. simpl. rewrite Hv. simpl.
    eexists _, _; split; [reflexivity |].
    repeat split; auto.
    + intros e He. apply Contains_intro. now apply Hagg.
    + simpl. rewrite <- app_assoc, drop_app_length.
      intros Hin. apply elem_of_cons in Hin as [? | Hin]; [discriminate |].
      apply list_elem_of_singleton in Hin. discriminate.
  - injection Hc as <-. rewrite Hv. simpl.
    eexists _, _; split; [reflexivity |].
    repeat split; auto.
    + intros e He. apply Contains_intro. now apply Hagg.
    + simpl. rewrite drop_app_length.
      intros Hin. apply list_elem_of_singleton in Hin. discriminate.
Qed.

(** What [color.RedString("Error:", err)] is: the label, and the error as
    an operand the format has no verb for, between the escape sequences
    when colour is on. *)
Lemma RedString_label (err : error) :
  Color.RedString NoColor "Error:" [Fmt.Err err]
  = (if NoColor then "" else Color.escape +:+ "[31m")
    +:+ "Error:" +:+ "%!(EXTRA " +:+ errType err +:+ "=" +:+ Error err
    +:+ ")" +:+ (if NoColor then "" else Color.escape +:+ "[0m").
Proof.
  unfold Color.RedString, Color.colorString, Color.wrap.
  change (Fmt.Sprintf "Error:" [Fmt.Err err])
    with ("Error:" +:+ "%!(EXTRA " +:+ (errType err +:+ "=" +:+ Error err) +:+ ")").
  destruct NoColor.
  - now rewrite append_empty_r, !append_assoc.
  - now rewrite !append_assoc.
Qed.

(** C2, as the code has it.  When the execution of the root command
    returns an error, [Run] writes to the standard output a report that
    ends in a line break, starts with the label [Error:] (after the
    escape sequence that turns the colour on, when colour is on) and
    holds, after the label, the message of the error returned; it writes
    nothing to the standard error and leaves the process with the status
    1.  When the execution succeeds [Run] writes nothing and returns
    without calling [os.Exit]. *)
Theorem Run_reports_on_stdout_and_exits_1 a c w :
  cmd a = Some c ->
  (forall err w1, Execute c w = (Some err, w1) ->
     exists report mid post w',
       Run Execute NoColor a w = Some w'
       /\ stdout w' = stdout w1 +:+ report +:+ nl
       /\ report = (if NoColor then "" else Color.escape +:+ "[31m")
                   +:+ "Error:" +:+ mid +:+ Error err +:+ post
       /\ hasText report "Error:"
       /\ hasText report (Error err)
       /\ stderr w' = stderr w1
       /\ exitStatus w' = Some 1%Z)
  /\ (forall w1, Execute c w = (None, w1) -> Run Execute NoColor a w = Some w1).
Proof.
  intros Hc. unfold Run. rewrite Hc. cbn [mbind option_bind]. split.
  - intros err w1 ->.
    set (pre := if NoColor then "" else Color.escape +:+ "[31m").
    set (mid := "%!(EXTRA " +:+ errType err +:+ "=").
    set (post := ")" +:+ (if NoColor then "" else Color.escape +:+ "[0m")
                 +:+ " %!v(MISSING)").
    exists (pre +:+ "Error:" +:+ mid +:+ Error err +:+ post), mid, post.
    eexists. split; [reflexivity |].
    split; [| split; [reflexivity | split; [| split; [| split; reflexivity]]]].
    + cbn [stdout osExit Printf]. f_equal.
      change (Fmt.Sprintf ("%v %v" +:+ nl)
                [Fmt.Str (Color.RedString NoColor "Error:" [Fmt.Err err])])
        with (Color.RedString NoColor "Error:" [Fmt.Err err]
              +:+ " " +:+ "%!v(MISSING)" +:+ nl).
      rewrite RedString_label. unfold pre, mid, post.
      now rewrite !append_assoc.
    + exists pre, (mid +:+ Error err +:+ post). reflexivity.
    + exists (pre +:+ "Error:" +:+ mid), post. now rewrite !append_assoc.
  - now intros w1 ->.
Qed.

End Lifecycle.

(** ** Flag sets *)

Lemma Lookup_None_iff (nm : string) (l : list Pflag.Flag) (sf : bool) (n : string) :
  Pflag.Lookup (Pflag.mkFlagSet nm l sf) n = None <-> n ∉ (Pflag.Name <$> l).
Proof.
  unfold Pflag.Lookup. simpl. induction l as [|x l IH]; simpl.
  - split; [intros _ Hin; inversion Hin | reflexivity].
  - rewrite not_elem_of_cons.
    destruct (String.eqb_spec (Pflag.Name x) n) as [-> | Hne].
    + split; [discriminate | tauto].
    + rewrite IH. split; [intros ?; split; [congruence | assumption] | tauto].
Qed.

Lemma Lookup_is_elem (fs : Pflag.FlagSet) (n : string) :
  match Pflag.Lookup fs n with Some _ => true | None => false end
  = bool_decide (n ∈ (Pflag.Name <$> Pflag.orderedFormal fs)).
Proof.
  destruct fs as [nm l sf]. simpl Pflag.orderedFormal.
  destruct (Pflag.Lookup _ n) eqn:Hl; symmetry.
  - apply bool_decide_eq_true.
    destruct (decide (n ∈ (Pflag.Name <$> l))) as [Hin | Hnin]; [exact Hin |].
    apply (Lookup_None_iff nm l sf) in Hnin. congruence.
  - apply bool_decide_eq_false. now apply (Lookup_None_iff nm l sf).
Qed.

Lemma shorthandUsed_false (nm : string) (l : list Pflag.Flag) (sf : bool) (c : string) :
  c <> "" ->
  c ∉ filter (fun x => x <> "") (Pflag.Shorthand <$> l) ->
  Pflag.shorthandUsed (Pflag.mkFlagSet nm l sf) c = false.
Proof.
  intros Hc. unfold Pflag.shorthandUsed. simpl.
  induction l as [|x l IH]; simpl; [reflexivity |].
  intros Hnin. rewrite ?fmap_cons, filter_cons in Hnin.
  destruct (String.eqb_spec (Pflag.Shorthand x) c) as [Heq | Hne]; simpl.
  - rewrite Heq in Hnin. rewrite decide_True in Hnin by exact Hc.
    exfalso. apply Hnin. left.
  - apply IH. case_decide; [| exact Hnin].
    now apply not_elem_of_cons in Hnin as [_ ?].
Qed.

Lemma AddFlag_fresh (nm : string) (l : list Pflag.Flag) (sf : bool) (x : Pflag.Flag) :
  Pflag.Name x ∉ (Pflag.Name <$> l) ->
  (String.length (Pflag.Shorthand x) <= 1)%nat ->
  (Pflag.Shorthand x <> "" ->
   Pflag.Shorthand x ∉ filter (fun s => s <> "") (Pflag.Shorthand <$> l)) ->
  Pflag.AddFlag (Pflag.mkFlagSet nm l sf) x = Some (Pflag.mkFlagSet nm (l ++ [x]) sf).
Proof.
  intros Hname Hlen Hshort. unfold Pflag.AddFlag.
  rewrite (proj2 (Lookup_None_iff nm l sf _) Hname). simpl.
  destruct (String.eqb_spec (Pflag.Shorthand x) "") as [| Hne]; [reflexivity |].
  destruct (Nat.ltb_spec 1 (String.length (Pflag.Shorthand x))); [lia |].
  now rewrite shorthandUsed_false by auto.
Qed.

(** Adding, one after the other, flags that differ from each other and
    from the flags already there appends them. *)
Lemma AddFlagSet_fold (nm : string) (sf : bool) (l : list Pflag.Flag) :
  forall done,
    NoDup (Pflag.Name <$> (done ++ l)) ->
    Forall (fun f => (String.length (Pflag.Shorthand f) <= 1)%nat) l ->
    NoDup (filter (fun s => s <> "") (Pflag.Shorthand <$> (done ++ l))) ->
    fold_left
      (fun acc flag =>
         match acc with
         | None => None
         | Some g =>
             match Pflag.Lookup g (Pflag.Name flag) with
             | Some _ => Some g
             | None => Pflag.AddFlag g flag
             end
         end)
      l (Some (Pflag.mkFlagSet nm done sf))
    = Some (Pflag.mkFlagSet nm (done ++ l) sf).
Proof.
  induction l as [|x l IH]; intros done Hnames Hlen Hshort; simpl.
  - now rewrite app_nil_r.
  - assert (Hx : Pflag.Name x ∉ (Pflag.Name <$> done)).
    { rewrite fmap_app, fmap_cons in Hnames.
      apply NoDup_app in Hnames as (_ & Hdisj & _).
      intros Hin. apply (Hdisj _ Hin). left. }
    rewrite (proj2 (Lookup_None_iff nm done sf _) Hx).
    rewrite AddFlag_fresh; [| exact Hx | now inversion Hlen |].
    + replace (done ++ x :: l) with ((done ++ [x]) ++ l)
        by (now rewrite <- app_assoc).
      apply IH.
      * now rewrite <- app_assoc.
      * now inversion Hlen.
      * now rewrite <- app_assoc.
    + intros Hne Hin.
      rewrite fmap_app, fmap_cons, filter_app, filter_cons in Hshort.
      rewrite decide_True in Hshort by exact Hne.
      apply NoDup_app in Hshort as (_ & Hdisj & _).
      apply (Hdisj _ Hin). left.
Qed.

Lemma insertByName_Permutation (x : Pflag.Flag) (l : list Pflag.Flag) :
  Pflag.insertByName x l ≡ₚ x :: l.
Proof.
  induction l as [|y l IH]; simpl; [reflexivity |].
  destruct (String.leb _ _); [reflexivity |].
  rewrite IH. apply Permutation_swap.
Qed.

Lemma sortFlags_Permutation (l : list Pflag.Flag) : Pflag.sortFlags l ≡ₚ l.
Proof.
  induction l as [|x l IH]; simpl; [reflexivity |].
  now rewrite insertByName_Permutation, IH.
Qed.

Lemma visitOrder_Permutation (fs : Pflag.FlagSet) :
  Pflag.visitOrder fs ≡ₚ Pflag.orderedFormal fs.
Proof.
  unfold Pflag.visitOrder. destruct (Pflag.SortFlags fs); [| reflexivity].
  apply sortFlags_Permutation.
Qed.

(** [wideFS.AddFlagSet(fs)] on the new flag set copies the flags of a
    flag set of the library, in the order [VisitAll] gives them. *)
Lemma AddFlagSet_copy (fs : Pflag.FlagSet) :
  FlagSetOK fs -> Pflag.AddFlagSet (Pflag.NewFlagSet "") fs = Some (copyOf fs).
Proof.
  intros (Hnames & Hlen & Hshort). unfold Pflag.AddFlagSet, Pflag.NewFlagSet, copyOf.
  pose proof (visitOrder_Permutation fs) as Hperm.
  rewrite (AddFlagSet_fold "" true (Pflag.visitOrder fs) []); [reflexivity | | |].
  - simpl. now rewrite Hperm.
  - now rewrite Hperm.
  - simpl. now rewrite Hperm.
Qed.

(** The flag set the usage text is asked of, for a group that may be
    rendered. *)
Lemma wideFSOf_wideOf (fs : Pflag.FlagSet) (cols : Z) :
  FlagSetOK fs ->
  ((24 < cols)%Z -> Pflag.Lookup fs (zzzOf cols) = None) ->
  wideFSOf fs cols = Some (wideOf fs cols).
Proof.
  intros Hok Hzzz. unfold wideFSOf, wideOf.
  rewrite AddFlagSet_copy by exact Hok. simpl.
  destruct (Z.ltb_spec 24 cols) as [Hwide | _]; [| reflexivity].
  unfold Pflag.Int0, copyOf. apply AddFlag_fresh; simpl.
  - specialize (Hzzz Hwide). destruct fs as [nm l sf].
    apply Lookup_None_iff in Hzzz. simpl.
    now rewrite (visitOrder_Permutation (Pflag.mkFlagSet nm l sf)).
  - lia.
  - congruence.
Qed.

(** ** NewApp and buildCommand *)

Lemma FlagSet_new (nfs : NamedFlagSets) (h : list Pflag.FlagSet) (n : string) :
  mapIndex (FlagSets nfs) n = None ->
  FlagSet nfs h n =
    (List.length h,
     {| Order := Order nfs ++ [n];
        FlagSets := Some (<[n := List.length h]> (default ∅ (FlagSets nfs))) |},
     h ++ [Pflag.NewFlagSet n]).
Proof.
  unfold FlagSet, mapIndex. destruct (FlagSets nfs) as [m|]; simpl.
  - now intros ->.
  - intros _. now rewrite lookup_empty.
Qed.

Lemma FlagSet_old (nfs : NamedFlagSets) (h : list Pflag.FlagSet) (n : string) (p : loc) :
  mapIndex (FlagSets nfs) n = Some p ->
  FlagSet nfs h n = (p, nfs, h).
Proof.
  unfold FlagSet, mapIndex. destruct nfs as [ord [m|]]; simpl; [| discriminate].
  now intros ->.
Qed.

Lemma onFlagSet_last (h : list Pflag.FlagSet) (fs : Pflag.FlagSet)
    (f : Pflag.FlagSet -> option Pflag.FlagSet) :
  onFlagSet (List.length h) f (h ++ [fs]) = fs' ← f fs; Some (h ++ [fs']).
Proof.
  unfold onFlagSet. rewrite list_lookup_middle by reflexivity. simpl.
  destruct (f fs) as [fs'|]; simpl; [| reflexivity].
  f_equal. rewrite insert_app_r_alt by reflexivity.
  now rewrite Nat.sub_diag.
Qed.

Lemma registered_last (h : list Pflag.FlagSet) (fs : Pflag.FlagSet)
    (ord : list string) (m : gmap string loc) (group flagName : string) :
  m !! group = Some (List.length h) ->
  registered (h ++ [fs]) (mkNamedFlagSets ord (Some m)) group flagName
  = match Pflag.Lookup fs flagName with Some _ => true | None => false end.
Proof.
  intros Hm. unfold registered, mapIndex. cbn [FlagSets]. rewrite Hm.
  now rewrite list_lookup_middle by reflexivity.
Qed.

Section Construction.

Context {U CmdT Command : Type}.
Variable cobraCommand : Command -> Cobra.Sub.
Variable FormatBasename : string -> string.
Variable stdoutTerm : TermInfo.
Variable rangeOrder : gmap string loc -> list (string * loc).

Implicit Types (a : App U CmdT Command) (h : list Pflag.FlagSet).

(** Without an options object [buildCommand] does not panic: the
    variable [namedFlagSets] ends with the one group [global], whose flag
    set is new on the heap and holds the flags registered, in this
    order. *)
Lemma buildCommand_without_options a h :
  options a = None ->
  exists c fs,
    buildCommand cobraCommand FormatBasename stdoutTerm rangeOrder a h
      = Some (setCmd c a,
              {| Order := ["global"];
                 FlagSets := Some (<["global" := List.length h]> ∅) |},
              h ++ [fs])
    /\ Pflag.Name <$> Pflag.orderedFormal fs
       = (if noVersion a then ["version"] else [])
         ++ (if noConfig a then [] else ["config"]) ++ ["help"].
Proof.
  intros Ho. unfold buildCommand. rewrite Ho. simpl.
  destruct (noVersion a), (noConfig a); simpl;
    rewrite ?FlagSet_new by reflexivity; simpl;
    unfold AddFlags, addConfigFlag, AddGlobalFlags;
    repeat (rewrite ?onFlagSet_last; simpl;
            rewrite ?(FlagSet_old _ _ "global" (List.length h))
              by (simpl; apply lookup_insert_eq); simpl);
    (eexists _, _; split; [reflexivity |]); reflexivity.
Qed.

(** C1, as the code has it.  For an App without an options object,
    [buildCommand] registers the version flag in the group [global]
    exactly when [noVersion] is true, the config-file flag exactly when
    [noConfig] is false, and the help flag always. *)
Theorem buildCommand_version_flag_when_noVersion a h :
  options a = None ->
  exists a' nfs h',
    buildCommand cobraCommand FormatBasename stdoutTerm rangeOrder a h
      = Some (a', nfs, h')
    /\ registered h' nfs "global" "version" = noVersion a
    /\ registered h' nfs "global" "config" = negb (noConfig a)
    /\ registered h' nfs "global" "help" = true.
Proof.
  intros Ho.
  destruct (buildCommand_without_options a h Ho) as (c & fs & -> & Hnames).
  eexists _, _, _. split; [reflexivity |].
  rewrite !registered_last by apply lookup_insert_eq.
  rewrite !Lookup_is_elem, Hnames.
  destruct (noVersion a), (noConfig a); repeat split.
Qed.

Lemma applyAll_app (opts1 opts2 : list (Option U CmdT Command)) a :
  applyAll (opts1 ++ opts2) a = applyAll opts2 (applyAll opts1 a).
Proof. unfold applyAll. apply fold_left_app. Qed.

Lemma applyAll_keeps_description (opts : list (Option U CmdT Command)) a :
  Forall (fun opt => forall a', description (opt a') = description a') opts ->
  description (applyAll opts a) = description a.
Proof.
  intros H. revert a. induction H as [|opt opts Hopt _ IH]; intros a; simpl.
  - reflexivity.
  - unfold applyAll in *. simpl. now rewrite IH, Hopt.
Qed.

(** [buildCommand] changes no field of the App but [cmd], and the long
    text of the command is the description. *)
Lemma buildCommand_fields a h a' nfs h' :
  buildCommand cobraCommand FormatBasename stdoutTerm rangeOrder a h
    = Some (a', nfs, h') ->
  exists c, a' = setCmd c a /\ Cobra.Long c = description a
            /\ Cobra.Short c = name a.
Proof.
  unfold buildCommand. intros H.
  repeat (simplify_option_eq || case_match);
    eexists; split; try reflexivity; split; reflexivity.
Qed.

(** Without an options object [buildCommand] does not panic. *)
Lemma buildCommand_total a h :
  options a = None ->
  is_Some (buildCommand cobraCommand FormatBasename stdoutTerm rangeOrder a h).
Proof.
  intros Ho.
  destruct (buildCommand_without_options a h Ho) as (c & fs & -> & _).
  eexists; reflexivity.
Qed.

(** C9.  [NewApp] applies the options to the fresh App first to last: an
    option sees what the options before it have set and has the last
    word on what it sets, and the App returned is the fresh App with
    every option applied in the order given, and its command.  So the
    description is the one of the last option that sets it, whatever was
    set before, and it is the long text of the command. *)
Theorem NewApp_later_option_wins (n b : string)
    (opts1 opts2 : list (Option U CmdT Command)) (d : string) h :
  Forall (fun opt => forall a', description (opt a') = description a') opts2 ->
  let opts := opts1 ++ WithDescription d :: opts2 in
  (forall (pre : list (Option U CmdT Command)) opt a,
     applyAll (pre ++ [opt]) a = opt (applyAll pre a))
  /\ description (applyAll opts (freshApp n b)) = d
  /\ (forall a nfs h',
        NewApp cobraCommand FormatBasename stdoutTerm rangeOrder n b opts h
          = Some (a, nfs, h') ->
        exists c, a = setCmd c (applyAll opts (freshApp n b))
                  /\ description a = d /\ Cobra.Long c = d)
  /\ (options (applyAll opts (freshApp n b)) = None ->
      is_Some (NewApp cobraCommand FormatBasename stdoutTerm rangeOrder
                 n b opts h)).
Proof.
  intros Hkeep opts.
  assert (Hd : description (applyAll opts (freshApp n b)) = d).
  { unfold opts. rewrite applyAll_app.
    change (applyAll (WithDescription d :: opts2) ?x)
      with (applyAll opts2 (WithDescription d x)).
    now rewrite applyAll_keeps_description. }
  split; [intros pre opt a; now rewrite applyAll_app |].
  split; [exact Hd | split].
  - intros a nfs h' H.
    apply buildCommand_fields in H as (c & -> & HL & _).
    exists c. split; [reflexivity |]. split; [exact Hd |].
    rewrite HL. exact Hd.
  - intros Ho. now apply buildCommand_total.
Qed.

End Construction.

(** ** NamedFlagSets.FlagSet *)

Lemma mapIndex_default (m : option (gmap string loc)) (n : string) :
  default ∅ m !! n = mapIndex m n.
Proof. destruct m; simpl; [reflexivity | apply lookup_empty]. Qed.

Lemma storeOK_zero (h : list Pflag.FlagSet) : storeOK zeroNamedFlagSets h.
Proof.
  repeat split; simpl; try discriminate.
  - constructor.
  - intros Hin. inversion Hin.
  - intros [? [=]].
Qed.

(** One call: the invariant is kept, the name refers to the location
    returned, names known before keep their flag set, and a new name is
    appended to [Order] with a new, empty flag set. *)
Lemma FlagSet_step (nfs : NamedFlagSets) (h : list Pflag.FlagSet) (n : string)
    (p : loc) (nfs1 : NamedFlagSets) (h1 : list Pflag.FlagSet) :
  storeOK nfs h ->
  FlagSet nfs h n = (p, nfs1, h1) ->
  storeOK nfs1 h1
  /\ mapIndex (FlagSets nfs1) n = Some p
  /\ (forall m q, mapIndex (FlagSets nfs) m = Some q ->
                  mapIndex (FlagSets nfs1) m = Some q)
  /\ (forall m q, mapIndex (FlagSets nfs1) m = Some q -> m <> n ->
                  mapIndex (FlagSets nfs) m = Some q)
  /\ (if decide (n ∈ Order nfs)
      then Order nfs1 = Order nfs /\ h1 = h
      else Order nfs1 = Order nfs ++ [n] /\ h1 = h ++ [Pflag.NewFlagSet n]
           /\ p = List.length h).
Proof.
  intros (Hnd & Hdom & Hlt & Hinj) Hcall.
  destruct (mapIndex (FlagSets nfs) n) as [q|] eqn:Hn.
  - rewrite (FlagSet_old _ _ _ _ Hn) in Hcall. injection Hcall as <- <- <-.
    split; [repeat split; auto; apply Hdom |].
    split; [exact Hn |]. split; [auto |]. split; [auto |].
    rewrite decide_True by (apply Hdom; eauto). auto.
  - rewrite (FlagSet_new _ _ _ Hn) in Hcall. injection Hcall as <- <- <-.
    assert (Hnot : n ∉ Order nfs).
    { intros Hin. apply Hdom in Hin as [? Hin]. congruence. }
    assert (Hget : forall m, mapIndex (Some (<[n := List.length h]>
                                 (default ∅ (FlagSets nfs)))) m
                   = if decide (n = m) then Some (List.length h)
                     else mapIndex (FlagSets nfs) m).
    { intros m. simpl. rewrite lookup_insert. rewrite mapIndex_default.
      reflexivity. }
    split; [| split; [| split; [| split]]].
    + repeat split; simpl Order; simpl FlagSets.
      * apply NoDup_app. repeat split; auto.
        -- intros x Hx Hx'. apply list_elem_of_singleton in Hx' as ->. auto.
        -- apply NoDup_singleton.
      * intros Hin. rewrite Hget. case_decide; [eauto |].
        apply elem_of_app in Hin as [Hin | Hin].
        -- now apply Hdom.
        -- apply list_elem_of_singleton in Hin. congruence.
      * rewrite Hget. case_decide as Heq.
        -- intros _. subst. apply elem_of_app. right. now left.
        -- intros Hs. apply elem_of_app. left. now apply Hdom.
      * intros m q. rewrite Hget, length_app. simpl.
        case_decide; [intros [= <-]; lia |].
        intros Hm. apply Hlt in Hm. lia.
      * intros m1 m2 q. rewrite !Hget.
        repeat case_decide; subst; auto.
        -- intros [= <-] Hm. apply Hlt in Hm. lia.
        -- intros Hm [= <-]. apply Hlt in Hm. lia.
        -- apply Hinj.
    + rewrite Hget. now rewrite decide_True.
    + intros m q Hm. rewrite Hget. case_decide; [congruence | exact Hm].
    + intros m q. rewrite Hget. case_decide; [congruence | auto].
    + rewrite decide_False by exact Hnot. auto.
Qed.

Lemma filter_not_in_known (known l : list string) (n : string) :
  n ∈ known ->
  filter (fun x => x ∉ known) (filter (fun y => y <> n) l)
  = filter (fun x => x ∉ known) l.
Proof.
  intros Hn. rewrite list_filter_filter. apply list_filter_iff.
  intros x. split; [tauto |]. intros Hx. split; [exact Hx | congruence].
Qed.

Lemma filter_not_in_snoc (known l : list string) (n : string) :
  filter (fun x => x ∉ known ++ [n]) l
  = filter (fun x => x ∉ known) (filter (fun y => y <> n) l).
Proof.
  rewrite list_filter_filter. apply list_filter_iff.
  intros x. rewrite elem_of_app, list_elem_of_singleton. tauto.
Qed.

Lemma filter_not_in_nil (l : list string) :
  filter (fun x => x ∉ @nil string) l = l.
Proof.
  induction l as [|x l IH]; [reflexivity |].
  rewrite filter_cons_True by (intros Hx; inversion Hx). now rewrite IH.
Qed.

(** A sequence of calls from a store that satisfies the invariant. *)
Lemma FlagSetCalls_spec (refs : list string) :
  forall nfs h ps nfs' h',
    storeOK nfs h ->
    FlagSetCalls nfs h refs = (ps, nfs', h') ->
    storeOK nfs' h'
    /\ Order nfs' = Order nfs ++ filter (fun x => x ∉ Order nfs) (distinct refs)
    /\ List.length ps = List.length refs
    /\ (forall m q, mapIndex (FlagSets nfs) m = Some q ->
                    mapIndex (FlagSets nfs') m = Some q)
    /\ (forall i n p, refs !! i = Some n -> ps !! i = Some p ->
                      mapIndex (FlagSets nfs') n = Some p)
    /\ (exists new, h' = h ++ new)
    /\ (forall n p, mapIndex (FlagSets nfs') n = Some p ->
                    mapIndex (FlagSets nfs) n = None ->
                    (List.length h <= p)%nat
                    /\ h' !! p = Some (Pflag.NewFlagSet n)).
Proof.
  induction refs as [|n refs IH]; intros nfs h ps nfs' h' Hok Hcalls.
  - simpl in Hcalls. injection Hcalls as <- <- <-.
    split; [exact Hok |].
    split; [simpl; now rewrite filter_nil, app_nil_r |].
    split; [reflexivity |].
    split; [auto |].
    split; [intros i n p Hi; now rewrite lookup_nil in Hi |].
    split; [exists []; now rewrite app_nil_r |].
    congruence.
  - simpl in Hcalls.
    destruct (FlagSet nfs h n) as [[p nfs1] h1] eqn:Hcall.
    destruct (FlagSetCalls nfs1 h1 refs) as [[ps2 nfs2] h2] eqn:Hrest.
    injection Hcalls as <- <- <-.
    destruct (FlagSet_step _ _ _ _ _ _ Hok Hcall)
      as (Hok1 & Hn1 & Hmono1 & Hback1 & Hcase).
    destruct (IH _ _ _ _ _ Hok1 Hrest)
      as (Hok2 & Hord2 & Hlen2 & Hmono2 & Hret2 & (new & Hh2) & Hnew2).
    split; [exact Hok2 |].
    split.
    { rewrite Hord2. simpl distinct.
      destruct (decide (n ∈ Order nfs)) as [Hin | Hnin].
      - destruct Hcase as (-> & _).
        rewrite filter_cons_False by tauto.
        now rewrite filter_not_in_known.
      - destruct Hcase as (-> & _ & _).
        rewrite filter_cons_True by exact Hnin.
        rewrite filter_not_in_snoc, <- app_assoc. reflexivity. }
    split; [simpl; now rewrite Hlen2 |].
    split; [auto |].
    split.
    { intros [|i] m q Hi Hp; simpl in Hi, Hp.
      - injection Hi as <-. injection Hp as <-. auto.
      - eauto. }
    split.
    { destruct (decide (n ∈ Order nfs)).
      - destruct Hcase as (_ & ->). now exists new.
      - destruct Hcase as (_ & -> & _). exists (Pflag.NewFlagSet n :: new).
        rewrite Hh2, <- app_assoc. reflexivity. }
    intros m q Hm2 Hm.
    assert (Hle : (List.length h <= List.length h1)%nat).
    { destruct (decide (n ∈ Order nfs)).
      - destruct Hcase as (_ & ->). lia.
      - destruct Hcase as (_ & -> & _). rewrite length_app. lia. }
    destruct (mapIndex (FlagSets nfs1) m) as [q1|] eqn:Hm1.
    + assert (q = q1) by (apply Hmono2 in Hm1; congruence). subst q1.
      destruct (decide (m = n)) as [-> | Hne].
      * destruct Hok as (_ & Hdom & _).
        rewrite decide_False in Hcase
          by (intros Hin; apply Hdom in Hin as [? ?]; congruence).
        destruct Hcase as (_ & Hh1 & Hp).
        assert (q = p) by congruence. subst q p.
        split; [lia |].
        rewrite Hh2, Hh1, <- app_assoc. simpl.
        now apply list_lookup_middle.
      * apply Hback1 in Hm1; [congruence | exact Hne].
    + destruct (Hnew2 _ _ Hm2 Hm1) as (? & ?). split; [lia | assumption].
Qed.

(** C4.  After any sequence of calls of [FlagSet] on the zero value,
    [Order] holds each name referred to once, in the order of the first
    references, and nothing twice; two calls return the same flag set
    exactly when they name the same group, and that flag set is the one
    the map keeps for the name: the empty one made at the first call. *)
Theorem FlagSetCalls_order_and_instances (refs : list string)
    (h : list Pflag.FlagSet) (ps : list loc) (nfs : NamedFlagSets)
    (h' : list Pflag.FlagSet) :
  FlagSetCalls zeroNamedFlagSets h refs = (ps, nfs, h') ->
  Order nfs = distinct refs
  /\ NoDup (Order nfs)
  /\ (forall n, n ∈ Order nfs <-> n ∈ refs)
  /\ List.length ps = List.length refs
  /\ (forall i j n m p q,
        refs !! i = Some n -> refs !! j = Some m ->
        ps !! i = Some p -> ps !! j = Some q ->
        (p = q <-> n = m))
  /\ (forall i n p,
        refs !! i = Some n -> ps !! i = Some p ->
        mapIndex (FlagSets nfs) n = Some p
        /\ (List.length h <= p)%nat
        /\ h' !! p = Some (Pflag.NewFlagSet n)).
Proof.
  intros Hcalls.
  destruct (FlagSetCalls_spec refs _ _ _ _ _ (storeOK_zero h) Hcalls)
    as (Hok & Hord & Hlen & _ & Hret & _ & Hnew).
  simpl in Hord.
  rewrite filter_not_in_nil in Hord.
  destruct Hok as (Hnd & Hdom & _ & Hinj).
  split; [exact Hord |]. split; [exact Hnd |].
  split.
  { intros n. rewrite Hdom. split.
    - intros [p Hp]. rewrite Hord in Hdom.
      assert (Hin : n ∈ distinct refs) by (apply Hdom; eauto).
      clear -Hin. induction refs as [|x refs IH]; simpl in Hin.
      + inversion Hin.
      + apply elem_of_cons in Hin as [-> | Hin]; [left |].
        right. apply IH. now apply list_elem_of_filter in Hin as [_ ?].
    - intros Hin. apply list_elem_of_lookup in Hin as [i Hi].
      destruct (lookup_lt_is_Some_2 ps i) as [p Hp].
      { rewrite Hlen. apply lookup_lt_is_Some_1. eauto. }
      exists p. eapply Hret; eauto. }
  split; [exact Hlen |].
  split.
  - intros i j n m p q Hi Hj Hp Hq.
    pose proof (Hret _ _ _ Hi Hp) as Hn.
    pose proof (Hret _ _ _ Hj Hq) as Hm.
    split.
    + intros <-. eapply Hinj; eauto.
    + intros <-. congruence.
  - intros i n p Hi Hp.
    pose proof (Hret _ _ _ Hi Hp) as Hn.
    split; [exact Hn |]. now apply Hnew.
Qed.

(** ** The text of a section *)

Lemma Sprintf_header (letters usages : string) :
  Fmt.Sprintf (nl +:+ "%s flags:" +:+ nl +:+ "%s")
    [Fmt.Str letters; Fmt.Str usages]
  = nl +:+ letters +:+ " flags:" +:+ nl +:+ usages.
Proof. simpl. now rewrite append_empty_r. Qed.

Lemma substring_0_0 (s : string) : String.substring 0 0 s = "".
Proof. now destruct s. Qed.

Lemma sliceTo_first (c : ascii) (rest : string) :
  sliceTo (String c rest) 1 = Some (String c "").
Proof.
  unfold sliceTo. simpl String.length.
  destruct (Z.ltb_spec (Z.of_nat (S (String.length rest))) 1); [lia |].
  simpl. now rewrite substring_0_0.
Qed.

Lemma upperByte_not_z (c : ascii) : Ascii.eqb (Strings.upperByte c) "z" = false.
Proof. destruct c as [[] [] [] [] [] [] [] []]; reflexivity. Qed.


Lemma hasText_trans (a b c : string) : hasText a b -> hasText b c -> hasText a c.
Proof.
  intros (p1 & q1 & ->) (p2 & q2 & ->).
  exists (p1 +:+ p2), (q2 +:+ q1). now rewrite !append_assoc.
Qed.

Lemma take_app (a b : string) (i : nat) :
  PflagText.take (a +:+ b) (String.length a + i) = a +:+ PflagText.take b i.
Proof.
  unfold PflagText.take. induction a as [|c a IH]; simpl; [reflexivity |].
  now rewrite IH.
Qed.


Lemma Index_le_length (s sub : string) :
  (Strings.Index s sub <= Z.of_nat (String.length s))%Z.
Proof.
  induction s as [|c s IH]; rewrite Index_unfold;
    destruct (String.prefix sub _); simpl String.length; try lia.
  destruct (Z.ltb_spec (Strings.Index s sub) 0); lia.
Qed.

(** A header without the byte [z] is skipped by the search for the
    filler. *)
Lemma Index_skip (hdr usages t : string) :
  occurs "z" hdr = false ->
  Strings.Index (hdr +:+ usages) (String "z" t)
  = if (Strings.Index usages (String "z" t) <? 0)%Z then (-1)%Z
    else (Z.of_nat (String.length hdr) + Strings.Index usages (String "z" t))%Z.
Proof.
  induction hdr as [|x hdr IH]; intros Hz.
  - simpl. destruct (Index_nonneg_or_none usages (String "z" t)) as [-> | Hge].
    + reflexivity.
    + destruct (Z.ltb_spec (Strings.Index usages (String "z" t)) 0); lia.
  - simpl in Hz. apply orb_false_elim in Hz as [Hx Hz].
    change (String x hdr +:+ usages) with (String x (hdr +:+ usages)).
    rewrite Index_unfold.
    assert (Hpre : String.prefix (String "z" t) (String x (hdr +:+ usages)) = false).
    { change (String.prefix (String "z" t) (String x (hdr +:+ usages)))
        with (if ascii_dec "z" x then String.prefix t (hdr +:+ usages) else false).
      destruct (ascii_dec "z" x) as [<- | _]; [discriminate | reflexivity]. }
    rewrite Hpre, (IH Hz).
    destruct (Z.ltb_spec (Strings.Index usages (String "z" t)) 0) as [Hlt | Hge].
    + reflexivity.
    + simpl String.length.
      destruct (Z.ltb_spec (Z.of_nat (String.length hdr)
                            + Strings.Index usages (String "z" t)) 0); lia.
Qed.

Lemma sliceTo_app (hdr usages : string) (i : Z) :
  (0 <= i <= Z.of_nat (String.length usages))%Z ->
  sliceTo (hdr +:+ usages) (Z.of_nat (String.length hdr) + i)
  = Some (hdr +:+ PflagText.take usages (Z.to_nat i)).
Proof.
  intros Hi. unfold sliceTo. rewrite append_length.
  destruct (Z.ltb_spec (Z.of_nat (String.length hdr) + i) 0); [lia |].
  destruct (Z.ltb_spec (Z.of_nat (String.length hdr + String.length usages))
              (Z.of_nat (String.length hdr) + i)); [lia |].
  f_equal. rewrite Z2Nat.inj_add, Nat2Z.id by lia.
  apply take_app.
Qed.

Lemma zzzOf_cons (cols : Z) :
  (24 < cols)%Z ->
  zzzOf cols = String "z" (Strings.repeat_nat "z" (Z.to_nat (cols - 25))).
Proof.
  intros H. unfold zzzOf, Strings.Repeat.
  replace (Z.to_nat (cols - 24)) with (S (Z.to_nat (cols - 25))) by lia.
  reflexivity.
Qed.

(** ** Lines *)

Lemma lineBreaks_app (a b : string) :
  lineBreaks (a +:+ b) = (lineBreaks a + lineBreaks b)%nat.
Proof. induction a as [|c a IH]; simpl; [reflexivity | rewrite IH; lia]. Qed.

Lemma wholeLines_cons (c : ascii) (s : string) :
  wholeLines (String c s)
  = if (lineBreaks (String c s) =? 0)%nat then "" else String c (wholeLines s).
Proof. reflexivity. Qed.

Lemma wholeLines_no_breaks (s : string) : lineBreaks s = 0%nat -> wholeLines s = "".
Proof.
  destruct s as [|c s]; [reflexivity |]. intros H.
  now rewrite wholeLines_cons, H.
Qed.

Lemma Split_length (s : string) :
  List.length (Strings.Split s "010") = S (lineBreaks s).
Proof.
  induction s as [|c s IH]; simpl; [reflexivity |].
  destruct (Ascii.eqb c "010"); simpl.
  - now rewrite IH.
  - destruct (Strings.Split s "010"); simpl in *; [discriminate | exact IH].
Qed.

Lemma Split_no_breaks (s : string) :
  lineBreaks s = 0%nat -> Strings.Split s "010" = [s].
Proof.
  induction s as [|c s IH]; simpl; [reflexivity |].
  destruct (Ascii.eqb c "010"); simpl; [discriminate |].
  intros H. now rewrite (IH H).
Qed.



Lemma Join_cons_String (c : ascii) (l : string) (ls : list string) (sep : string) :
  Strings.Join (String c l :: ls) sep = String c (Strings.Join (l :: ls) sep).
Proof. destruct ls; reflexivity. Qed.

(** [strings.Join(lines[:len(lines)-1], "\n")] followed by a line break
    is the text up to and with its last line break. *)
Lemma Join_Split_wholeLines (s : string) :
  (0 < lineBreaks s)%nat ->
  Strings.Join (removelast (Strings.Split s "010")) nl +:+ nl = wholeLines s.
Proof.
  induction s as [|c s IH]; simpl; [lia |].
  pose proof (Split_length s) as Hlen.
  destruct (Ascii.eqb_spec c "010") as [-> | Hne]; simpl.
  - intros _. destruct (Nat.eq_dec (lineBreaks s) 0) as [Hz | Hnz].
    + rewrite (Split_no_breaks s Hz), (wholeLines_no_breaks s Hz). reflexivity.
    + destruct (Strings.Split s "010") as [|l [|l2 ls]] eqn:Hs;
        simpl in Hlen; try lia.
      rewrite <- IH by lia.
      change (removelast ("" :: l :: l2 :: ls))
        with ("" :: removelast (l :: l2 :: ls)).
      destruct (removelast (l :: l2 :: ls)) eqn:Hr; [| reflexivity].
      simpl in Hr. destruct ls; discriminate.
  - intros Hpos. destruct (lineBreaks s) as [|k] eqn:Hk; [lia |]. simpl.
    destruct (Strings.Split s "010") as [|l [|l2 ls]] eqn:Hs;
      simpl in Hlen; try lia.
    rewrite <- IH by lia.
    change (removelast (String c l :: l2 :: ls))
      with (String c l :: removelast (l2 :: ls)).
    change (removelast (l :: l2 :: ls)) with (l :: removelast (l2 :: ls)).
    now rewrite Join_cons_String.
Qed.

Lemma wholeLines_app_nl (a b : string) :
  wholeLines (a +:+ nl +:+ b) = a +:+ nl +:+ wholeLines b.
Proof.
  induction a as [|c a IH].
  - reflexivity.
  - change (String c a +:+ nl +:+ b) with (String c (a +:+ nl +:+ b)).
    rewrite wholeLines_cons.
    assert (Hpos : lineBreaks (String c (a +:+ nl +:+ b)) <> 0%nat).
    { simpl. rewrite !lineBreaks_app. simpl. lia. }
    destruct (Nat.eqb_spec (lineBreaks (String c (a +:+ nl +:+ b))) 0);
      [contradiction |].
    now rewrite IH.
Qed.



Lemma lineBreaks_spaces (n : nat) : lineBreaks (Strings.repeat_nat " " n) = 0%nat.
Proof. induction n as [|n IH]; simpl; [reflexivity | exact IH]. Qed.

(** At the width 0 the wrap of the library puts the indent after the
    line breaks of the text and adds no line break. *)
Lemma wrap_0_lineBreaks (i : Z) (s : string) :
  lineBreaks (PflagText.wrap i 0 s) = lineBreaks s.
Proof.
  unfold PflagText.wrap. simpl. unfold Strings.Repeat.
  induction s as [|c s IH]; simpl; [reflexivity |].
  destruct (Ascii.eqb c "010") eqn:Hc; simpl.
  - now rewrite lineBreaks_app, lineBreaks_spaces, IH.
  - now rewrite Hc, IH.
Qed.

(** ** PrintSections *)
Section RendererFacts.

Variable FlagUsagesWrapped : Pflag.FlagSet -> Z -> string.
Variable unicodeUpper : string -> string.

Local Abbreviation section := (printSection FlagUsagesWrapped unicodeUpper).
Local Abbreviation render := (PrintSections FlagUsagesWrapped unicodeUpper).
Local Abbreviation header := (headerOf unicodeUpper).

Lemma headerLetters_cons (c : ascii) (rest : string) :
  headerLetters unicodeUpper (String c rest)
  = Some (Strings.ToUpper unicodeUpper (String c (String c ""))).
Proof. unfold headerLetters. now rewrite sliceTo_first. Qed.

Lemma headerOf_app (c : ascii) (rest usages : string) :
  nl +:+ Strings.ToUpper unicodeUpper (String c (String c ""))
     +:+ " flags:" +:+ nl +:+ usages
  = header (String c rest) +:+ usages.
Proof. unfold headerOf. now rewrite !append_assoc. Qed.

Lemma headerOf_ascii (c : ascii) (rest : string) :
  Strings.isASCIIbyte c = true ->
  header (String c rest)
  = nl +:+ String (Strings.upperByte c) (String (Strings.upperByte c) " flags:")
       +:+ nl.
Proof.
  intros Hc. unfold headerOf, Strings.ToUpper. simpl firstByte.
  simpl Strings.isASCII. rewrite Hc. reflexivity.
Qed.

Lemma headerOf_no_z (c : ascii) (rest : string) :
  Strings.isASCIIbyte c = true -> occurs "z" (header (String c rest)) = false.
Proof.
  intros Hc. rewrite headerOf_ascii by exact Hc. simpl.
  now rewrite upperByte_not_z.
Qed.

Lemma wholeLines_header (c : ascii) (rest text : string) :
  wholeLines (header (String c rest) +:+ text)
  = header (String c rest) +:+ wholeLines text.
Proof.
  set (letters := Strings.ToUpper unicodeUpper (String c (String c ""))).
  replace (header (String c rest) +:+ text)
    with ((nl +:+ letters +:+ " flags:") +:+ nl +:+ text)
    by (unfold headerOf; simpl firstByte; now rewrite !append_assoc).
  rewrite wholeLines_app_nl.
  unfold headerOf. simpl firstByte. now rewrite !append_assoc.
Qed.

(** Up to 24 columns the section is the header and the usage text. *)
Lemma printSection_narrow (n : string) (fs wide : Pflag.FlagSet) (cols : Z) :
  (cols <= 24)%Z -> n <> "" ->
  wideFSOf fs cols = Some wide ->
  section n fs cols = Some (header n +:+ FlagUsagesWrapped wide cols).
Proof.
  intros Hcols Hn Hwide. destruct n as [|c rest]; [contradiction |].
  unfold printSection. rewrite Hwide. cbn [mbind option_bind].
  rewrite headerLetters_cons. cbn [mbind option_bind]. rewrite Sprintf_header.
  destruct (Z.ltb_spec 24 cols); [lia |].
  now rewrite (headerOf_app c rest).
Qed.

(** Above 24 columns the section is the header and the whole lines of
    the usage text before the filler; without the filler in the usage
    text the slice [buf.String()[:i]] panics. *)
Lemma printSection_wide (c : ascii) (rest : string) (fs wide : Pflag.FlagSet)
    (cols : Z) :
  (24 < cols)%Z -> Strings.isASCIIbyte c = true ->
  wideFSOf fs cols = Some wide ->
  section (String c rest) fs cols
  = if (Strings.Index (FlagUsagesWrapped wide cols) (zzzOf cols) <? 0)%Z
    then None
    else Some (header (String c rest)
               +:+ wholeLines (beforeFiller (FlagUsagesWrapped wide cols) cols)).
Proof.
  intros Hcols Hc Hwide.
  unfold printSection. rewrite Hwide. cbn [mbind option_bind].
  rewrite headerLetters_cons. cbn [mbind option_bind]. rewrite Sprintf_header.
  destruct (Z.ltb_spec 24 cols); [| lia].
  rewrite (headerOf_app c rest). unfold beforeFiller.
  rewrite (zzzOf_cons cols Hcols).
  rewrite Index_skip by (now apply headerOf_no_z).
  set (usages := FlagUsagesWrapped wide cols).
  set (zzz := String "z" _).
  pose proof (Index_le_length usages zzz) as Hle.
  destruct (Z.ltb_spec (Strings.Index usages zzz) 0) as [Hlt | Hge].
  - reflexivity.
  - rewrite sliceTo_app by lia. cbn [mbind option_bind]. f_equal.
    rewrite Nat.sub_1_r, <- removelast_firstn_len.
    rewrite Join_Split_wholeLines.
    + apply wholeLines_header.
    + rewrite <- (headerOf_app c rest), !lineBreaks_app. simpl. lia.
Qed.

Lemma concat_cons (x : string) (xs : list string) :
  String.concat "" (x :: xs) = x +:+ String.concat "" xs.
Proof. destruct xs; simpl; [now rewrite append_empty_r | reflexivity]. Qed.

(** The loop over [Order]: when every group that has flags is rendered,
    the text written is the texts of these groups one after the other. *)
Lemma PrintSections_groups (text : string * Pflag.FlagSet -> string)
    (h : list Pflag.FlagSet) (fss : NamedFlagSets) (cols : Z)
    (groups : list (string * Pflag.FlagSet)) :
  groupsOf h fss = Some groups ->
  Forall (fun g => Pflag.HasFlags g.2 = true ->
                   section g.1 g.2 cols = Some (text g)) groups ->
  render h fss cols
  = Some (String.concat ""
            (text <$> filter (fun g => Pflag.HasFlags g.2 = true) groups)).
Proof.
  unfold PrintSections, groupsOf.
  generalize (Order fss) as names. intros names. revert groups.
  induction names as [|n names IH]; intros groups Hgroups Hall.
  - simpl in Hgroups. injection Hgroups as <-. reflexivity.
  - simpl in Hgroups. unfold printGroup at 1. simpl.
    destruct (mapIndex (FlagSets fss) n) as [p|]; [| discriminate].
    simpl in *. destruct (h !! p) as [fs|]; [| discriminate]. simpl in *.
    destruct (mapM _ names) as [groups'|] eqn:Hrest; [| discriminate].
    simpl in Hgroups. injection Hgroups as <-.
    apply Forall_cons in Hall as [Hhere Hall].
    specialize (IH groups' eq_refl Hall).
    destruct (mapM (printGroup _ _ h fss cols) names) as [texts|] eqn:Htexts;
      [| discriminate].
    simpl in IH. injection IH as IH.
    unfold printGroup in Htexts. simpl in Hhere.
    destruct (Pflag.HasFlags fs) eqn:Hflags; simpl.
    + rewrite (Hhere eq_refl). simpl. unfold printGroup. rewrite Htexts. simpl.
      rewrite filter_cons_True by exact Hflags.
      rewrite fmap_cons, concat_cons, <- IH. f_equal.
      exact (concat_cons _ texts).
    + unfold printGroup. rewrite Htexts. simpl.
      rewrite filter_cons_False by (simpl; congruence).
      rewrite <- IH. f_equal. exact (concat_cons "" texts).
Qed.

(** The text of a group is part of the text written. *)
Lemma PrintSections_has_group (h : list Pflag.FlagSet) (fss : NamedFlagSets)
    (cols : Z) (out n : string) :
  render h fss cols = Some out ->
  n ∈ Order fss ->
  exists t, printGroup FlagUsagesWrapped unicodeUpper h fss cols n = Some t
            /\ hasText out t.
Proof.
  unfold PrintSections. generalize (Order fss) as names.
  intros names. revert out.
  induction names as [|x names IH]; intros out Hout Hin; [inversion Hin |].
  simpl in Hout.
  destruct (printGroup _ _ h fss cols x) as [y|] eqn:Hy; [| discriminate].
  destruct (mapM _ names) as [k|] eqn:Hk; [| discriminate].
  simpl in Hout. injection Hout as <-.
  change (match k with [] => y | _ :: _ => y +:+ String.concat "" k end)
    with (String.concat "" (y :: k)).
  rewrite concat_cons.
  apply elem_of_cons in Hin as [-> | Hin].
  - exists y. split; [exact Hy |]. apply hasText_app_r, hasText_refl.
  - destruct (IH _ eq_refl Hin) as (t & Ht & Htext).
    exists t. split; [exact Ht |]. now apply hasText_app_l.
Qed.

(** C3, as the code has it.  For a group that has a flag and whose name
    starts with the ASCII byte [c], the text [PrintSections] writes holds
    the header made of an empty line, the upper-case [c] twice and
    [ flags:]; the section is written whenever [wideFS] can be built and,
    above 24 columns, the filler occurs in the usage text. *)
Theorem PrintSections_header_doubles_first_byte (h : list Pflag.FlagSet)
    (fss : NamedFlagSets) (cols : Z) (n : string) (p : loc)
    (fs : Pflag.FlagSet) (c : ascii) (rest : string) :
  mapIndex (FlagSets fss) n = Some p ->
  h !! p = Some fs ->
  Pflag.HasFlags fs = true ->
  n = String c rest ->
  Strings.isASCIIbyte c = true ->
  let headerLine :=
    String (Strings.upperByte c) (String (Strings.upperByte c) " flags:") in
  (forall out,
     n ∈ Order fss -> render h fss cols = Some out ->
     hasText out (nl +:+ headerLine +:+ nl))
  /\ (forall wide,
        wideFSOf fs cols = Some wide ->
        ((24 < cols)%Z ->
         (0 <= Strings.Index (FlagUsagesWrapped wide cols) (zzzOf cols))%Z) ->
        exists body,
          section n fs cols = Some (nl +:+ headerLine +:+ nl +:+ body)).
Proof.
  intros Hp Hfs Hflags -> Hc headerLine.
  assert (Hsection : forall wide t,
            wideFSOf fs cols = Some wide ->
            section (String c rest) fs cols = Some t ->
            exists body, t = header (String c rest) +:+ body).
  { intros wide t Hwide Ht. destruct (Z.ltb_spec 24 cols) as [Hcols | Hcols].
    - rewrite (printSection_wide c rest fs wide cols Hcols Hc Hwide) in Ht.
      destruct (_ <? 0)%Z; [discriminate |]. injection Ht as <-. eauto.
    - rewrite (printSection_narrow _ fs wide cols Hcols) in Ht
        by (discriminate || exact Hwide).
      injection Ht as <-. eauto. }
  assert (Hheader : forall body,
            header (String c rest) +:+ body
            = nl +:+ headerLine +:+ nl +:+ body).
  { intros body. rewrite headerOf_ascii by exact Hc.
    now rewrite !append_assoc. }
  split.
  - intros out Hin Hout.
    destruct (PrintSections_has_group _ _ _ _ _ Hout Hin) as (t & Ht & Htext).
    unfold printGroup in Ht. rewrite Hp in Ht. simpl in Ht.
    rewrite Hfs in Ht. simpl in Ht. rewrite Hflags in Ht. simpl in Ht.
    destruct (wideFSOf fs cols) as [wide|] eqn:Hwide.
    + destruct (Hsection wide t eq_refl Ht) as [body ->].
      apply (hasText_trans _ _ _ Htext).
      rewrite headerOf_ascii by exact Hc. apply hasText_app_r, hasText_refl.
    + unfold printSection in Ht. rewrite Hwide in Ht. discriminate.
  - intros wide Hwide Hfound.
    destruct (Z.ltb_spec 24 cols) as [Hcols | Hcols].
    + rewrite (printSection_wide c rest fs wide cols Hcols Hc Hwide).
      specialize (Hfound Hcols).
      destruct (Z.ltb_spec (Strings.Index (FlagUsagesWrapped wide cols)
                              (zzzOf cols)) 0); [lia |].
      eexists. now rewrite Hheader.
    + rewrite (printSection_narrow _ fs wide cols Hcols)
        by (discriminate || exact Hwide).
      eexists. now rewrite Hheader.
Qed.

(** C5.  With [cols = 0], for groups whose names are not empty,
    [PrintSections] writes, for every group that has flags and in the
    order of [Order], the header of the group and then the usage text at
    the width 0 of a copy of its flag set, with nothing cut and no filler
    flag; groups without flags write nothing.  At the width 0 the wrap of
    the flag library adds no line break to a usage. *)
Theorem PrintSections_zero_columns_unwrapped (h : list Pflag.FlagSet)
    (fss : NamedFlagSets) (groups : list (string * Pflag.FlagSet)) :
  groupsOf h fss = Some groups ->
  Forall (groupOK 0) groups ->
  render h fss 0
  = Some (String.concat ""
            ((fun g => header g.1 +:+ FlagUsagesWrapped (copyOf g.2) 0)
               <$> filter (fun g => Pflag.HasFlags g.2 = true) groups))
  /\ (forall i s, lineBreaks (PflagText.wrap i 0 s) = lineBreaks s).
Proof.
  intros Hgroups Hok. split; [| apply wrap_0_lineBreaks].
  apply PrintSections_groups; [exact Hgroups |].
  eapply Forall_impl; [exact Hok |].
  intros [n fs] Hg Hflags. simpl in *.
  destruct (Hg Hflags) as (Hn & Hfs & Hzzz). simpl in *.
  apply printSection_narrow; [lia | exact Hn |].
  now rewrite wideFSOf_wideOf.
Qed.


End RendererFacts.

(** * The statements on instances *)

Lemma globalFlags_ok : FlagSetOK globalFlags.
Proof.
  repeat split.
  - apply (bool_decide_unpack _). vm_compute. exact I.
  - repeat constructor.
  - apply (bool_decide_unpack _). vm_compute. exact I.
Qed.

Lemma demoSets_groups :
  groupsOf demoHeap demoSets
  = Some [("global", globalFlags); ("misc", Pflag.NewFlagSet "misc")].
Proof. vm_compute. reflexivity. Qed.

Lemma demoSets_groupOK (cols : Z) :
  ((24 < cols)%Z -> Pflag.Lookup globalFlags (zzzOf cols) = None) ->
  Forall (groupOK cols)
    [("global", globalFlags); ("misc", Pflag.NewFlagSet "misc")].
Proof.
  intros Hzzz.
  constructor; [| constructor; [| constructor]].
  - intros _. split; [discriminate |].
    split; [apply globalFlags_ok | exact Hzzz].
  - intros H. discriminate H.
Qed.

Lemma newDemoApp_default :
  exists nfs h, newDemoApp [] = Some (demoApp, nfs, h).
Proof. eexists _, _. vm_compute. reflexivity. Qed.

(** *** buildCommand *)

Lemma buildCommand_version_flag_when_noVersion_witness :
  exists a' nfs h',
    buildCommand (fun _ : unit => helpCommand "app") (fun b => b) NotTerminal
      map_to_list (freshApp "app" "app" : App unit unit unit) []
      = Some (a', nfs, h')
    /\ registered h' nfs "global" "version"
        = noVersion (freshApp "app" "app" : App unit unit unit)
    /\ registered h' nfs "global" "config"
        = negb (noConfig (freshApp "app" "app" : App unit unit unit))
    /\ registered h' nfs "global" "help" = true.
Proof.
  apply (buildCommand_version_flag_when_noVersion
           (fun _ : unit => helpCommand "app") (fun b => b) NotTerminal
           map_to_list (freshApp "app" "app") []).
  reflexivity.
Defined.

(** The App of [NewApp("app", "app")], whose [noVersion] is false, has no
    version flag in the group [global]; with [WithNoVersion()] it has
    one. *)
Example NewApp_version_flag_at_default :
  (exists a nfs h,
     newDemoApp [] = Some (a, nfs, h)
     /\ noVersion a = false
     /\ registered h nfs "global" "version" = false)
  /\ (exists a nfs h,
        newDemoApp [WithNoVersion] = Some (a, nfs, h)
        /\ noVersion a = true
        /\ registered h nfs "global" "version" = true).
Proof.
  split; eexists _, _, _; (split; [vm_compute; reflexivity |]);
    split; vm_compute; reflexivity.
Qed.

(** *** Run *)

Lemma Run_reports_on_stdout_and_exits_1_witness :
  (forall err w1, executeFails demoCommand world0 = (Some err, w1) ->
     exists report mid post w',
       Run executeFails true demoApp world0 = Some w'
       /\ stdout w' = stdout w1 +:+ report +:+ nl
       /\ report = "" +:+ "Error:" +:+ mid +:+ Error err +:+ post
       /\ hasText report "Error:"
       /\ hasText report (Error err)
       /\ stderr w' = stderr w1
       /\ exitStatus w' = Some 1%Z)
  /\ (forall w1, executeFails demoCommand world0 = (None, w1) ->
        Run executeFails true demoApp world0 = Some w1).
Proof.
  apply (Run_reports_on_stdout_and_exits_1 executeFails true demoApp
           demoCommand world0).
  reflexivity.
Defined.

(** C2 as stated fails on the App of [NewApp("app", "app")] when the
    execution returns the error [boom]: nothing is written to the
    standard error, and what is written to the standard output is not
    the line [Error: boom]. *)
Lemma Run_error_line_counterexample :
  exists w',
    Run executeFails true demoApp world0 = Some w'
    /\ stderr w' = ""
    /\ stdout w' = "Error:%!(EXTRA *errors.errorString=boom) %!v(MISSING)" +:+ nl
    /\ Strings.Contains (stdout w' +:+ stderr w') "Error: boom" = false
    /\ exitStatus w' = Some 1%Z.
Proof. eexists. repeat split; vm_compute; reflexivity. Qed.

(** When the execution succeeds [Run] returns and the world is as the
    execution left it: nothing written, no exit status set. *)
Example Run_success_returns :
  Run executeSucceeds true demoApp world0 = Some world0.
Proof. reflexivity. Qed.

(** *** applyOptionRules *)

Lemma applyOptionRules_complete_failure_witness :
  exists w',
    applyOptionRules true (appWith incompleteOptions) world0
      = Some (Some (errorsNew "incomplete"), w')
    /\ calls w' = calls world0 ++ [CallComplete]
    /\ (CallValidate ∉ drop (List.length (calls world0)) (calls w'))
    /\ logs w' = logs world0
    /\ user w' = tt.
Proof.
  apply (applyOptionRules_complete_failure true (appWith incompleteOptions)
           incompleteOptions world0
           (fun u => (Some (errorsNew "incomplete"), u))
           (errorsNew "incomplete") tt);
    reflexivity.
Defined.

Lemma applyOptionRules_validate_failure_witness :
  exists agg w',
    applyOptionRules true (appWith invalidOptions) world0 = Some (Some agg, w')
    /\ NewAggregate [errorsNew "errA"; errorsNew "errB"] = Some agg
    /\ (forall e, e ∈ [errorsNew "errA"; errorsNew "errB"] ->
                  hasText (Error agg) (Error e))
    /\ (forall e, e ∈ [errorsNew "errA"; errorsNew "errB"] ->
                  Strings.Contains (Error agg) (Error e) = true)
    /\ calls w' = calls (setUser tt CallComplete world0) ++ [CallValidate]
    /\ (CallString ∉ drop (List.length (calls world0)) (calls w'))
    /\ logs w' = logs world0.
Proof.
  apply (applyOptionRules_validate_failure true (appWith invalidOptions)
           invalidOptions world0 (setUser tt CallComplete world0)
           [errorsNew "errA"; errorsNew "errB"] tt);
    try reflexivity.
  discriminate.
Defined.

(** The aggregate of [errA] and [errB]. *)
Example NewAggregate_two_errors :
  Error <$> NewAggregate [errorsNew "errA"; errorsNew "errB"]
  = Some "[errA, errB]".
Proof. reflexivity. Qed.

(** *** NewApp *)

Lemma NewApp_later_option_wins_witness :
  (forall (pre : list (Option unit unit unit)) opt a,
     applyAll (pre ++ [opt]) a = opt (applyAll pre a))
  /\ description (applyAll [WithDescription "foo"; WithDescription "bar"]
                 (freshApp "app" "app" : App unit unit unit)) = "bar"
  /\ (forall a nfs h',
        newDemoApp [WithDescription "foo"; WithDescription "bar"]
          = Some (a, nfs, h') ->
        exists c,
          a = setCmd c (applyAll [WithDescription "foo"; WithDescription "bar"]
                          (freshApp "app" "app"))
          /\ description a = "bar" /\ Cobra.Long c = "bar")
  /\ (options (applyAll [WithDescription "foo"; WithDescription "bar"]
                 (freshApp "app" "app" : App unit unit unit)) = None ->
      is_Some (newDemoApp [WithDescription "foo"; WithDescription "bar"])).
Proof.
  apply (NewApp_later_option_wins (fun _ : unit => helpCommand "app")
           (fun b => b) NotTerminal map_to_list "app" "app"
           [WithDescription "foo"] [] "bar" []).
  constructor.
Defined.

(** *** NamedFlagSets.FlagSet *)

Lemma FlagSetCalls_order_and_instances_witness :
  Order demoCalls.1.2 = distinct demoRefs
  /\ NoDup (Order demoCalls.1.2)
  /\ (forall n, n ∈ Order demoCalls.1.2 <-> n ∈ demoRefs)
  /\ List.length demoCalls.1.1 = List.length demoRefs
  /\ (forall i j n m p q,
        demoRefs !! i = Some n -> demoRefs !! j = Some m ->
        demoCalls.1.1 !! i = Some p -> demoCalls.1.1 !! j = Some q ->
        (p = q <-> n = m))
  /\ (forall i n p,
        demoRefs !! i = Some n -> demoCalls.1.1 !! i = Some p ->
        mapIndex (FlagSets demoCalls.1.2) n = Some p
        /\ (List.length (@nil Pflag.FlagSet) <= p)%nat
        /\ demoCalls.2 !! p = Some (Pflag.NewFlagSet n)).
Proof.
  apply (FlagSetCalls_order_and_instances demoRefs [] demoCalls.1.1
           demoCalls.1.2 demoCalls.2).
  vm_compute. reflexivity.
Defined.

Example FlagSetCalls_three_references :
  demoCalls.1.1 = [0; 1; 0]%nat
  /\ Order demoCalls.1.2 = ["global"; "misc"]
  /\ demoCalls.2 = [Pflag.NewFlagSet "global"; Pflag.NewFlagSet "misc"].
Proof. repeat split; vm_compute; reflexivity. Qed.

(** *** PrintSections *)

Lemma PrintSections_header_doubles_first_byte_witness :
  (forall out,
     "global" ∈ Order demoSets ->
     PrintSections PflagText.FlagUsagesWrapped noUpper demoHeap demoSets 0
       = Some out ->
     hasText out (nl +:+ "GG flags:" +:+ nl))
  /\ (forall wide,
        wideFSOf globalFlags 0 = Some wide ->
        ((24 < 0)%Z ->
         (0 <= Strings.Index (PflagText.FlagUsagesWrapped wide 0) (zzzOf 0))%Z) ->
        exists body,
          printSection PflagText.FlagUsagesWrapped noUpper "global" globalFlags 0
          = Some (nl +:+ "GG flags:" +:+ nl +:+ body)).
Proof.
  apply (PrintSections_header_doubles_first_byte PflagText.FlagUsagesWrapped
           noUpper demoHeap demoSets 0 "global" 0%nat globalFlags "g" "lobal");
    reflexivity.
Defined.

(** C3 as stated fails on the group [global]: its header is [GG flags:],
    the first byte twice, and the text written has no [GL flags:]. *)
Lemma PrintSections_header_counterexample :
  exists out,
    PrintSections PflagText.FlagUsagesWrapped noUpper demoHeap demoSets 0
      = Some out
    /\ Strings.Contains out "GG flags:" = true
    /\ Strings.Contains out "GL flags:" = false.
Proof. eexists. repeat split; vm_compute; reflexivity. Qed.

Lemma PrintSections_zero_columns_unwrapped_witness :
  PrintSections PflagText.FlagUsagesWrapped noUpper demoHeap demoSets 0
  = Some (String.concat ""
            ((fun g => headerOf noUpper g.1
                       +:+ PflagText.FlagUsagesWrapped (copyOf g.2) 0)
               <$> filter (fun g => Pflag.HasFlags g.2 = true)
                     [("global", globalFlags);
                      ("misc", Pflag.NewFlagSet "misc")]))
  /\ (forall i s, lineBreaks (PflagText.wrap i 0 s) = lineBreaks s).
Proof.
  apply (PrintSections_zero_columns_unwrapped PflagText.FlagUsagesWrapped
           noUpper demoHeap demoSets _ demoSets_groups).
  apply demoSets_groupOK. intros H. lia.
Defined.

(** The text written for the two groups at the width 0: one section,
    two lines of usage. *)
Example PrintSections_zero_columns_text :
  Strings.Split
    (default "" (PrintSections PflagText.FlagUsagesWrapped noUpper
                   demoHeap demoSets 0)) "010"
  = [""; "GG flags:";
     "  -h, --help              help for app";
     "      --log-level level   the level of the messages that are logged"
       +:+ " (default " +:+ Fmt.Quote "info" +:+ ")";
     ""].
Proof. vm_compute. reflexivity. Qed.



(** The lines written for the two groups at 80 columns. *)
Example PrintSections_80_columns_lines :
  List.map String.length
    (Strings.Split
       (default "" (PrintSections PflagText.FlagUsagesWrapped noUpper
                      demoHeap demoSets 80)) "010")
  = [0; 9; 71; 28; 71; 74; 0]%nat.
Proof. vm_compute. reflexivity. Qed.

